(** * spoonjs: the hierarchical state engine of [src/core/Controller.js]

    A shallow embedding of the [Controller] class: the state-table
    parser, the default-state normaliser, the name resolver, the
    equality decider and the delegation engine, followed by the
    properties of the specification stated against them.

    JavaScript objects used as dictionaries (parameter bags, the parsed
    state table) are finite maps of their entries; where the
    code reads such an object by name and tests what it finds, the
    members inherited from [Object.prototype] are accounted for
    ([JS.inherited], [hasState], [Mout.fillIn]).  Objects with identity
    (state descriptors, controllers) live in a store and are named by
    references, so that aliasing is visible. *)

From Stdlib Require Import Ascii String ZArith.
From stdpp Require Import gmap strings list fin_maps.

Open Scope string_scope.
Open Scope list_scope.

(** ** JavaScript string primitives used by the controller

    A string is the sequence of its characters, and a character is an
    [ascii]: the character of code [n] stands for the JavaScript
    character U+00nn (the Latin-1 range).  Strings holding a character
    above U+00FF are outside the model; indices count characters. *)

Module JS.

(** [s.charAt(0) === c] *)
Definition charAt0_is (c : ascii) (s : string) : bool :=
  match s with
  | String a _ => bool_decide (a = c)
  | EmptyString => false
  end.

(** [s.substr(n)] *)
Fixpoint substr_from (n : nat) (s : string) : string :=
  match n, s with
  | O, _ => s
  | S n', String _ s' => substr_from n' s'
  | S _, EmptyString => EmptyString
  end.

(** [s.substr(0, n)] *)
Fixpoint substr_to (n : nat) (s : string) : string :=
  match n, s with
  | O, _ => EmptyString
  | S n', String a s' => String a (substr_to n' s')
  | S _, EmptyString => EmptyString
  end.

(** [s.indexOf(c)], [None] standing for [-1] *)
Fixpoint indexOf (c : ascii) (s : string) : option nat :=
  match s with
  | EmptyString => None
  | String a s' => if bool_decide (a = c) then Some O else S <$> indexOf c s'
  end.

(** mout's [startsWith(s, p)] *)
Fixpoint startsWith (s p : string) : bool :=
  match p, s with
  | EmptyString, _ => true
  | String _ _, EmptyString => false
  | String b p', String a s' => bool_decide (a = b) && startsWith s' p'
  end.

(** [s.split('.')]: the empty string splits into one empty segment. *)
Fixpoint split_on (c : ascii) (s : string) : list string :=
  match s with
  | EmptyString => [EmptyString]
  | String a s' =>
      if bool_decide (a = c) then EmptyString :: split_on c s'
      else match split_on c s' with
           | seg :: segs => String a seg :: segs
           | [] => [String a EmptyString]
           end
  end.

(** Truthiness of a string value that may be [undefined]. *)
Definition truthy (o : option string) : bool :=
  match o with
  | Some (String _ _) => true
  | _ => false
  end.

(** String conversion of a possibly-[undefined] string, as done by
    [+] and by property access [obj[name]]. *)
Definition to_str (o : option string) : string :=
  match o with
  | Some s => s
  | None => "undefined"
  end.

(** Characters that [.] refuses in a regular expression: the line
    terminators.  Up to U+00FF they are LF and CR (the other two,
    U+2028 and U+2029, are not characters of the model). *)
Definition line_terminator (a : ascii) : bool :=
  bool_decide (a = "010"%char) || bool_decide (a = "013"%char).

(** Characters matched by [\s]: white space and line terminators.  Up
    to U+00FF they are TAB, LF, VT, FF, CR, SP and the no-break space
    U+00A0 (the others, U+1680, U+2000 to U+200A, U+2028, U+2029,
    U+202F, U+205F, U+3000 and U+FEFF, are not characters of the
    model). *)
Definition whitespace (a : ascii) : bool :=
  bool_decide (a = " "%char) || bool_decide (a = "009"%char)
  || bool_decide (a = "010"%char) || bool_decide (a = "011"%char)
  || bool_decide (a = "012"%char) || bool_decide (a = "013"%char)
  || bool_decide (a = "160"%char).

(** The property names every plain object inherits from
    [Object.prototype].  Each names a function, but for [__proto__],
    which reads the prototype itself: a read [obj[name]] of one of them
    on an object without an own property of that name finds a truthy
    value. *)
Definition objectPrototype : list string :=
  [ "constructor"; "hasOwnProperty"; "isPrototypeOf"; "propertyIsEnumerable";
    "toLocaleString"; "toString"; "valueOf";
    "__defineGetter__"; "__defineSetter__"; "__lookupGetter__";
    "__lookupSetter__"; "__proto__" ].

Definition inherited (name : string) : bool :=
  bool_decide (name ∈ objectPrototype).

End JS.

(** ** The state-parameter regular expression

    [Controller._stateParamsRegExp = /\((.+?)\)/] and the separator
    [/\s*,\s*/] given to [split]. *)

Module RegExp.

(** The rest of a lazy [.+?] once its first character is consumed: the
    shortest run of non-terminator characters followed by [")"]. *)
Fixpoint lazy_until_close (s : string) : option string :=
  match s with
  | EmptyString => None
  | String a s' =>
      if bool_decide (a = ")"%char) then Some EmptyString
      else if JS.line_terminator a then None
      else String a <$> lazy_until_close s'
  end.

(** A match of [\((.+?)\)] anchored at the head of [s]; the result is
    the captured group. *)
Definition match_here (s : string) : option string :=
  match s with
  | String p (String a s') =>
      if bool_decide (p = "("%char) && negb (JS.line_terminator a)
      then String a <$> lazy_until_close s'
      else None
  | _ => None
  end.

(** [key.match(/\((.+?)\)/)]: leftmost match, [matches[1]]. *)
Fixpoint stateParams (key : string) : option string :=
  match match_here key with
  | Some g => Some g
  | None =>
      match key with
      | String _ key' => stateParams key'
      | EmptyString => None
      end
  end.

(** [g.split(/\s*,\s*/)], as a scanner.  [piece] is the segment being
    built, [ws] the white space seen since its last solid character
    (it belongs to the separator if a comma follows, to the segment
    otherwise); [after] tells that a separator was just consumed and
    its trailing white space is being skipped. *)
Fixpoint split_scan (after : bool) (piece ws : string) (s : string) : list string :=
  match s with
  | EmptyString => [if after then EmptyString else piece +:+ ws]
  | String a s' =>
      if bool_decide (a = ","%char) then
        (if after then EmptyString else piece) :: split_scan true "" "" s'
      else if JS.whitespace a then
        (if after then split_scan true "" "" s'
         else split_scan false piece (ws +:+ String a "") s')
      else
        split_scan false
          ((if after then EmptyString else piece +:+ ws) +:+ String a "") "" s'
  end.

Definition split_commas (g : string) : list string := split_scan false "" "" g.

End RegExp.

(** ** Values, parameter bags and the mout helpers *)

(** References to state descriptors and to nodes of the component tree. *)
Definition loc := nat.
Definition cid := nat.

(** Parameter values are opaque to the engine, except that [fillIn]
    tests them against [null] and that [setState] stores the transition
    envelope [$info = { newState, previousState }] among them. *)
Inductive Value :=
| VUndefined
| VNull
| VBool (b : bool)
| VNum (n : Z)
| VStr (s : string)
| VInfo (newState : loc) (previousState : option loc).

#[global] Instance Value_eq_dec : EqDecision Value.
Proof. solve_decision. Defined.

Abbreviation Params := (gmap string Value).

Module Mout.

(** [v == null] *)
Definition nullish (v : Value) : bool :=
  match v with
  | VUndefined | VNull => true
  | _ => false
  end.

(** [mixIn(target, src)]: every own property of [src] is copied onto
    [target], overwriting.  An absent [src] is skipped. *)
Definition mixIn (target : Params) (src : option Params) : Params :=
  match src with
  | Some s => s ∪ target
  | None => target
  end.

(** [fillIn(target, src)]: a property of [src] is copied only where
    [target[key] == null].  The read [target[key]] finds the own
    property or, without one, what [Object.prototype] holds under that
    name, which is not [null]: such a key is not copied. *)
Definition fillIn (target src : Params) : Params :=
  union_with (λ t s, Some (if nullish t then s else t)) target
    (filter (λ kv : string * Value,
               is_Some (target !! kv.1) ∨ JS.inherited kv.1 = false) src).

End Mout.

(** ** State descriptors *)

Module State.

(** Modelled from the spec: the [State] class of [services/state] is
    not part of [src/].  A descriptor has a full name (a dotted path),
    a parameter mapping and a cursor on the segments of the path; its
    local name is the segment under the cursor. *)
Record t := mk {
  fullName : string;
  cursor : nat;
  params : Params
}.

#[global] Instance eq_dec : EqDecision t.
Proof. solve_decision. Defined.

(** Modelled from the spec: [getName()] reads the local name, absent
    once the cursor has left the path. *)
Definition getName (s : t) : option string :=
  JS.split_on "."%char (fullName s) !! cursor s.

(** Modelled from the spec: [setFullName(name)] rewrites the full
    name and nothing else. *)
Definition setFullName (n : string) (s : t) : t :=
  mk n (cursor s) (params s).

(** Writes through the object returned by [getParams()]. *)
Definition setParams (p : Params) (s : t) : t :=
  mk (fullName s) (cursor s) p.

(** Modelled from the spec: [next()] advances the cursor by one
    segment. *)
Definition next (s : t) : t :=
  mk (fullName s) (S (cursor s)) (params s).

Fixpoint index_of (n : string) (segs : list string) : option nat :=
  match segs with
  | [] => None
  | seg :: segs' => if bool_decide (seg = n) then Some O else S <$> index_of n segs'
  end.

(** Modelled from the spec: [seekTo(localName)] moves the cursor onto
    the segment of that name and answers the descriptor itself. *)
Definition seekTo (n : option string) (s : t) : t :=
  match index_of (JS.to_str n) (JS.split_on "."%char (fullName s)) with
  | Some i => mk (fullName s) i (params s)
  | None => s
  end.

(** Modelled from the spec: [isEqual(other, relevantKeys)] compares
    the local names and then the parameters restricted to the given
    keys; without keys, or with none, only the names are compared. *)
Definition isEqual (self other : t) (keys : option (list string)) : bool :=
  bool_decide (getName self = getName other)
  && forallb (λ k, bool_decide (params self !! k = params other !! k))
             (default [] keys).

(** Modelled from the spec: [clone()] produces an independent copy;
    the copy is a new object, allocated by the caller in the store. *)
Definition clone (s : t) : t := mk (fullName s) (cursor s) (params s).

(** Modelled from the spec: the authority's [createDescriptor(name,
    params)], a descriptor whose path is [name], cursor at the start. *)
Definition create (n : string) (p : Params) : t := mk n O p.

End State.

(** ** Controllers, the component tree and the store *)

(** What a state-table entry holds under [fn]: a function (named by an
    identifier, its behaviour is given by the run-time environment) or
    a value that cannot be called, of which only the truthiness matters
    ([undefined] is falsy). *)
Inductive FnVal :=
| FnCallable (h : nat)
| FnNotCallable (truthy : bool).

#[global] Instance FnVal_eq_dec : EqDecision FnVal.
Proof. solve_decision. Defined.

(** [typeof v === 'function'] and [!!v] *)
Definition callable (v : FnVal) : bool :=
  match v with
  | FnCallable _ => true
  | FnNotCallable _ => false
  end.

Definition truthy_fn (v : FnVal) : bool :=
  match v with
  | FnCallable _ => true
  | FnNotCallable t => t
  end.

Module StateMeta.
(** An entry of the parsed table [this._states]. *)
Record t := mk {
  wildcard : bool;
  params : list string;
  fn : FnVal
}.
End StateMeta.

(** The parsed table [this._states] is a plain object.  The finite map
    holds its entries by name; a read [this._states[name]] finds the
    entry of that name or, without one, what the object inherits:

    - a member of [Object.prototype];
    - if an entry was stored under [__proto__]: that assignment makes
      the entry object the prototype of the table (the read
      [this._states['__proto__']] answers it, as the map does), so that
      its own properties [params], [fn] and, for a wildcard, [wildcard]
      are found under their names.

    An inherited value is no entry: it has no [wildcard], [params] or
    [fn] of its own.  [inheritedValue] tells whether the read finds a
    truthy inherited value, [hasState] is [!!this._states[name]]. *)
Definition inheritedValue (states : gmap string StateMeta.t) (name : string) : bool :=
  JS.inherited name
  || match states !! "__proto__" with
     | Some proto =>
         bool_decide (name = "params")
         || bool_decide (name = "fn") && truthy_fn (StateMeta.fn proto)
         || bool_decide (name = "wildcard") && StateMeta.wildcard proto
     | None => false
     end.

Definition hasState (states : gmap string StateMeta.t) (name : string) : bool :=
  match states !! name with
  | Some _ => true
  | None => inheritedValue states name
  end.

Module DefaultState.
(** [this._defaultState] once normalised. *)
Record t := mk {
  name : string;
  params : Params
}.
End DefaultState.

(** The right-hand side of a declared state: a method name, a function,
    or some other value (truthy or not). *)
Inductive HandlerDecl :=
| HName (method : string)
| HFunction (h : nat)
| HOther (truthy : bool).

(** The value found by [this[func]]: a function or some other value
    (truthy or not). *)
Inductive Property :=
| PFunction (h : nat)
| POther (truthy : bool).

(** [_defaultState] as declared: a bare name or a [{name, params}]. *)
Inductive DefaultDecl :=
| DString (n : string)
| DObject (n : string) (p : Params).

(** What a controller class declares on its prototype.  [d_states] is
    the declared [_states] object in enumeration order, [d_methods]
    what [this[name]] finds for a name (nothing stands for
    [undefined]). *)
Record Declaration := {
  d_name : string;
  d_states : list (string * HandlerDecl);
  d_defaultState : option DefaultDecl;
  d_methods : gmap string Property
}.

(** A controller instance ([name_] is [$name]). *)
Record Controller := {
  name_ : string;
  _uplink : option cid;
  _downlinks : list cid;
  _states : gmap string StateMeta.t;
  _nrStates : nat;
  _defaultState : option DefaultState.t;
  _currentState : option loc;
  _previousState : option loc
}.

(** A node of the tree is a controller or some other joint. *)
Inductive Node :=
| NController (c : Controller)
| NJoint (uplink : option cid) (downlinks : list cid).

(** The store: descriptors by reference, nodes by identifier, and the
    descriptor the external authority holds as current. *)
Record Store := {
  heap : gmap loc State.t;
  nodes : gmap cid Node;
  current : option loc
}.

(** ** Errors, diagnostics and observable events *)

Inductive Error :=
| InvalidStateName (key ctrl : string)
| NonLocalStateName (key ctrl : string)
| NonexistentHandler (key ctrl : string)
| EmptyDefaultState (ctrl : string)
| NonexistentDefaultState (ctrl : string)
| UnresolvableRelativeState (name ctrl : string)
| TypeError.

(** The three [console.warn] messages. *)
Inductive Warning :=
| NoDefaultState (ctrl : string)
| UnknownState (name ctrl : string)
| NoChildDeclared (ctrl name : string).

(** What [delegateState] is given: nothing, a state instance, or a
    parameter bag. *)
Inductive Arg :=
| ArgNone
| ArgState (l : loc)
| ArgBag (p : Params).

(** The log of a run.  [Warn] is the console output; the other events
    are ghost marks left at the entry of [delegateState], at the end of
    [_setCurrentState], at [state.next()] and at the handler call. *)
Inductive Event :=
| Warn (w : Warning)
| Delegated (c : cid) (a : Arg)
| Commit (c : cid) (previous : option loc) (now : loc)
| Advance (s : loc)
| Handler (c : cid) (name : string).

Record World := {
  store : Store;
  trace : list Event
}.

(** [delegateState] and [setState] answer [this] or [undefined]. *)
Inductive RetVal :=
| RThis (c : cid)
| RUndefined.

(** Why the model, not the program, stops: recursion budget exhausted,
    or a reference that names no object (impossible in JavaScript). *)
Inductive Failure :=
| OutOfFuel
| Dangling.

(** Results of read-only code. *)
Inductive Result (A : Type) :=
| Ok (a : A)
| Raise (e : Error)
| Halt (f : Failure).
Arguments Ok {A} a.
Arguments Raise {A} e.
Arguments Halt {A} f.

(** Results of external code acting on the store. *)
Inductive Effect (A : Type) :=
| Done (a : A) (σ : Store)
| Raised (e : Error) (σ : Store).
Arguments Done {A} a σ.
Arguments Raised {A} e σ.

(** Results of the engine's stateful code. *)
Inductive Outcome (A : Type) :=
| Ret (a : A) (w : World)
| Throw (e : Error) (w : World)
| Stuck (f : Failure).
Arguments Ret {A} a w.
Arguments Throw {A} e w.
Arguments Stuck {A} f.

(** ** The environment of the class *)

(** The authority service [services/state], by its interface.  What
    [setCurrent] does to the store is its own business; it answers
    whether the global descriptor changed.  [getCurrent()] reads the
    [current] field of the store and [_createStateInstance] is
    [State.create]. *)
Module stateRegistry.
Class t := {
  isValid : string → bool;
  isRegistered : string → bool;
  setCurrent : string → Params → option Params → Store → Effect bool;
  generateUrl : string → Params → bool → string
}.
End stateRegistry.

(** The build flag [has('debug')] and the behaviour of handlers:
    [call h c p] runs function [h] with [this = c] on the bag [p]. *)
Class Runtime := {
  debug : bool;
  call : nat → cid → Params → Store → Effect unit
}.

(** ** The state-and-exception monad of the engine *)

Definition M (A : Type) : Type := World → Outcome A.

#[global] Instance M_ret : MRet M := λ A a w, Ret a w.

#[global] Instance M_bind : MBind M := λ A B f m w,
  match m w with
  | Ret a w' => f a w'
  | Throw e w' => Throw e w'
  | Stuck x => Stuck x
  end.

Definition throw {A} (e : Error) : M A := λ w, Throw e w.
Definition stuck {A} (f : Failure) : M A := λ _, Stuck f.
Definition get : M Store := λ w, Ret (store w) w.
Definition modify (f : Store → Store) : M unit :=
  λ w, Ret tt {| store := f (store w); trace := trace w |}.
Definition emit (ev : Event) : M unit :=
  λ w, Ret tt {| store := store w; trace := trace w ++ [ev] |}.

Definition lift_result {A} (r : Result A) : M A :=
  match r with
  | Ok a => mret a
  | Raise e => throw e
  | Halt f => stuck f
  end.

Definition lift_effect {A} (f : Store → Effect A) : M A := λ w,
  match f (store w) with
  | Done a σ => Ret a {| store := σ; trace := trace w |}
  | Raised e σ => Throw e {| store := σ; trace := trace w |}
  end.

(** The world a run ends in, if the program (not the model) ended it. *)
Definition final_world {A} (o : Outcome A) : option World :=
  match o with
  | Ret _ w => Some w
  | Throw _ w => Some w
  | Stuck _ => None
  end.

(** A computation that only adds to the log. *)
Definition appends {A} (m : M A) : Prop :=
  ∀ w w', final_world (m w) = Some w' → ∃ t, trace w' = trace w ++ t.

(** Store accessors. *)
Definition set_heap (h : gmap loc State.t) (σ : Store) : Store :=
  {| heap := h; nodes := nodes σ; current := current σ |}.
Definition set_nodes (n : gmap cid Node) (σ : Store) : Store :=
  {| heap := heap σ; nodes := n; current := current σ |}.

Definition controller_at (σ : Store) (c : cid) : option Controller :=
  match nodes σ !! c with
  | Some (NController k) => Some k
  | _ => None
  end.

Definition descriptor (l : loc) : M State.t :=
  σ ← get;
  match heap σ !! l with
  | Some s => mret s
  | None => stuck Dangling
  end.

Definition write_descriptor (l : loc) (s : State.t) : M unit :=
  modify (λ σ, set_heap (<[l := s]> (heap σ)) σ).

Definition controller (c : cid) : M Controller :=
  σ ← get;
  match controller_at σ c with
  | Some k => mret k
  | None => stuck Dangling
  end.

Definition write_controller (c : cid) (k : Controller) : M unit :=
  modify (λ σ, set_nodes (<[c := NController k]> (nodes σ)) σ).

(** [new State(...)]: the object gets a reference no object has. *)
Definition alloc (s : State.t) : M loc :=
  σ ← get;
  let l := fresh (dom (heap σ)) in
  write_descriptor l s;;
  mret l.

(** The object answered by [_resolveFullState]; [name] is absent once
    deleted (or never set, for an absolute name). *)
Module Resolved.
Record t := mk {
  name : option string;
  fullName : string;
  params : Params
}.
End Resolved.

(** ** The class itself *)

Section Engine.

Context {authority : stateRegistry.t} {runtime : Runtime}.

(** *** State Table Builder: [_parseStates] *)

(** The key once its parenthesised part is cut off:
    [key.substr(0, key.indexOf('('))] if the expression matched. *)
Definition localName (key : string) : string :=
  match RegExp.stateParams key with
  | Some _ => JS.substr_to (default O (JS.indexOf "("%char key)) key
  | None => key
  end.

(** The handler: [this[func]] for a string, the value itself otherwise. *)
Definition resolveHandler (self : Declaration) (func : HandlerDecl) : FnVal :=
  match func with
  | HName m =>
      match d_methods self !! m with
      | Some (PFunction h) => FnCallable h
      | Some (POther t) => FnNotCallable t
      | None => FnNotCallable false
      end
  | HFunction h => FnCallable h
  | HOther t => FnNotCallable t
  end.

(** The structural errors of one declared state. *)
Definition ill_declared (self : Declaration) (entry : string * HandlerDecl) : Prop :=
  stateRegistry.isValid (localName entry.1) = false
  ∨ is_Some (JS.indexOf "."%char (localName entry.1))
  ∨ callable (resolveHandler self entry.2) = false.

(** One turn of the [for (key in states)] loop. *)
Definition parseState (self : Declaration) (states : gmap string StateMeta.t)
    (entry : string * HandlerDecl) : Result (gmap string StateMeta.t) :=
  let matches := RegExp.stateParams entry.1 in
  let key := localName entry.1 in
  let wildcard := bool_decide (matches = Some "*") in
  let params :=
    match matches with
    | Some g => if bool_decide (g = "*") then [] else RegExp.split_commas g
    | None => []
    end in
  if debug && negb (stateRegistry.isValid key)
  then Raise (InvalidStateName key (d_name self))
  else if debug && bool_decide (is_Some (JS.indexOf "."%char key))
  then Raise (NonLocalStateName key (d_name self))
  else
    let func := resolveHandler self entry.2 in
    if debug && negb (callable func)
    then Raise (NonexistentHandler key (d_name self))
    else Ok (<[key := StateMeta.mk wildcard params func]> states).

Fixpoint parseStates_loop (self : Declaration) (states : gmap string StateMeta.t)
    (entries : list (string * HandlerDecl)) : Result (gmap string StateMeta.t) :=
  match entries with
  | [] => Ok states
  | entry :: rest =>
      match parseState self states entry with
      | Ok states' => parseStates_loop self states' rest
      | Raise e => Raise e
      | Halt f => Halt f
      end
  end.

(** [_parseStates]: the parsed table and [_nrStates]. *)
Definition _parseStates (self : Declaration) : Result (gmap string StateMeta.t * nat) :=
  match parseStates_loop self ∅ (d_states self) with
  | Ok states => Ok (states, length (d_states self))
  | Raise e => Raise e
  | Halt f => Halt f
  end.

(** *** Default State Normalizer: [_parseDefaultState] *)

(** A default state given as a string becomes [{name, params: {}}]. *)
Definition defaultOf (decl : DefaultDecl) : DefaultState.t :=
  match decl with
  | DString n => DefaultState.mk n ∅
  | DObject n p => DefaultState.mk n p
  end.

Definition _parseDefaultState (self : Declaration) (states : gmap string StateMeta.t)
    : Result (option DefaultState.t) :=
  match d_defaultState self with
  | None => Ok None
  | Some decl =>
      let d := defaultOf decl in
      if debug && bool_decide (DefaultState.name d = "")
      then Raise (EmptyDefaultState (d_name self))
      else if debug && negb (hasState states (DefaultState.name d))
      then Raise (NonexistentDefaultState (d_name self))
      else Ok (Some d)
  end.

(** The constructor: [Joint.call(this)] leaves the links empty, then
    the two parsers run. *)
Definition construct (self : Declaration) : Result Controller :=
  match _parseStates self with
  | Ok (states, nr) =>
      match _parseDefaultState self states with
      | Ok d =>
          Ok {| name_ := d_name self; _uplink := None; _downlinks := [];
                _states := states; _nrStates := nr; _defaultState := d;
                _currentState := None; _previousState := None |}
      | Raise e => Raise e
      | Halt f => Halt f
      end
  | Raise e => Raise e
  | Halt f => Halt f
  end.

(** *** Name Resolver: [_resolveFullState] *)

Definition controller_of (σ : Store) (c : cid) : Result Controller :=
  match controller_at σ c with
  | Some k => Ok k
  | None => Halt Dangling
  end.

(** The [while (ancestor && ancestor instanceof Controller)] loop, on
    the pair [(state.fullName, state.params)]. *)
Fixpoint walk_ancestors (fuel : nat) (σ : Store) (ancestor : option cid)
    (fullName : string) (params : Params) : Result (string * Params) :=
  match ancestor with
  | None => Ok (fullName, params)
  | Some a =>
      match nodes σ !! a with
      | None => Halt Dangling
      | Some (NJoint _ _) => Ok (fullName, params)
      | Some (NController k) =>
          match _currentState k with
          | None => Ok (fullName, params)
          | Some l =>
              match heap σ !! l, fuel with
              | None, _ => Halt Dangling
              | Some _, O => Halt OutOfFuel
              | Some ancestorState, S fuel' =>
                  walk_ancestors fuel' σ (_uplink k)
                    (JS.to_str (State.getName ancestorState)
                     +:+ (if bool_decide (fullName = "") then "" else "." +:+ fullName))
                    (Mout.fillIn params (State.params ancestorState))
              end
          end
      end
  end.

(** The local branch, from [state = {...}] to [return state]. *)
Definition resolve_local (fuel : nat) (σ : Store) (self : Controller) (name : string)
    : Result Resolved.t :=
  match
    match _currentState self with
    | Some l =>
        match heap σ !! l with
        | Some s => Ok (Mout.mixIn ∅ (Some (State.params s)))
        | None => Halt Dangling
        end
    | None => Ok ∅
    end
  with
  | Ok params =>
      match walk_ancestors fuel σ (_uplink self) name params with
      | Ok (fullName, params) =>
          match _defaultState self with
          | Some d =>
              if bool_decide (name = "") then
                Ok (Resolved.mk (Some (DefaultState.name d))
                      (if bool_decide (fullName = "") then DefaultState.name d else fullName)
                      (Mout.mixIn params (Some (DefaultState.params d))))
              else Ok (Resolved.mk (Some name) fullName params)
          | None => Ok (Resolved.mk (Some name) fullName params)
          end
      | Raise e => Raise e
      | Halt f => Halt f
      end
  | Raise e => Raise e
  | Halt f => Halt f
  end.

Fixpoint _resolveFullState (fuel : nat) (σ : Store) (c : cid) (name : option string)
    : Result Resolved.t :=
  let name := default "" name in
  if JS.charAt0_is "/"%char name then
    Ok (Resolved.mk None (JS.substr_from 1 name) ∅)
  else
    match controller_of σ c with
    | Ok self =>
        if JS.startsWith name "../" then
          match (match _uplink self with
                 | Some u => option_map (λ _, u) (controller_at σ u)
                 | None => None
                 end) with
          | None =>
              if debug then Raise (UnresolvableRelativeState name (name_ self))
              else Raise TypeError
          | Some u =>
              match fuel with
              | O => Halt OutOfFuel
              | S fuel' =>
                  match _resolveFullState fuel' σ u (Some (JS.substr_from 3 name)) with
                  | Ok state => Ok (Resolved.mk None (Resolved.fullName state)
                                      (Resolved.params state))
                  | Raise e => Raise e
                  | Halt f => Halt f
                  end
              end
          end
        else resolve_local fuel σ self name
    | Raise e => Raise e
    | Halt f => Halt f
    end.

(** The two lines that open [generateUrl] and [setState]: resolve, then
    [mixIn(state.params, params)]. *)
Definition resolve_with (fuel : nat) (σ : Store) (c : cid) (name : option string)
    (params : option Params) : Result Resolved.t :=
  match _resolveFullState fuel σ c name with
  | Ok state =>
      Ok (Resolved.mk (Resolved.name state) (Resolved.fullName state)
            (Mout.mixIn (Resolved.params state) params))
  | Raise e => Raise e
  | Halt f => Halt f
  end.

Definition generateUrl (fuel : nat) (σ : Store) (c : cid) (name : option string)
    (params : option Params) (absolute : bool) : Result string :=
  match resolve_with fuel σ c name params with
  | Ok state => Ok (stateRegistry.generateUrl (Resolved.fullName state) (Resolved.params state) absolute)
  | Raise e => Raise e
  | Halt f => Halt f
  end.

(** *** Equality Decider: [_isSameState]

    [this._states[name] || {}] is read for its [wildcard] and [params]
    only: an inherited value has neither, as the empty object. *)

Definition _isSameState (σ : Store) (self : Controller) (state : State.t)
    (baseState : option loc) : Result bool :=
  match (match baseState with Some b => Some b | None => _currentState self end) with
  | None => Ok false
  | Some b =>
      let stateMeta := _states self !! JS.to_str (State.getName state) in
      if default false (StateMeta.wildcard <$> stateMeta) then Ok false
      else
        match heap σ !! b with
        | None => Halt Dangling
        | Some base => Ok (State.isEqual base state (StateMeta.params <$> stateMeta))
        end
  end.

(** *** Delegation Engine *)

(** [_fillStateIfEmpty], on the content of the descriptor. *)
Definition fillState (self : Controller) (state : State.t) : State.t :=
  match _defaultState self with
  | None => state
  | Some d =>
      if bool_decide (State.getName state = Some (DefaultState.name d)) then
        State.setParams (Mout.fillIn (State.params state) (DefaultState.params d)) state
      else if negb (JS.truthy (State.getName state)) then
        let state' :=
          State.setFullName (State.fullName state +:+ "." +:+ DefaultState.name d) state in
        State.setParams (Mout.fillIn (State.params state') (DefaultState.params d)) state'
      else state
  end.

Definition _fillStateIfEmpty (c : cid) (state : loc) : M unit :=
  self ← controller c;
  s ← descriptor state;
  write_descriptor state (fillState self s).

(** The controller after [_previousState = _currentState] and
    [_currentState = now]. *)
Definition commit (self : Controller) (now : loc) : Controller :=
  {| name_ := name_ self; _uplink := _uplink self; _downlinks := _downlinks self;
     _states := _states self; _nrStates := _nrStates self;
     _defaultState := _defaultState self;
     _currentState := Some now; _previousState := _currentState self |}.

(** [_setCurrentState].  Its last two lines only read. *)
Definition _setCurrentState (c : cid) (state : loc) : M unit :=
  self ← controller c;
  s ← descriptor state;
  now ← alloc (State.clone s);
  write_controller c (commit self now);;
  σ ← get;
  s ← descriptor state;
  copy ← descriptor now;
  (if bool_decide (Some state = current σ)
      && negb (bool_decide (State.fullName s = State.fullName copy))
   then write_descriptor state (State.setFullName (State.fullName copy) s)
   else mret tt);;
  emit (Commit c (_currentState self) now).

(** [state.next()] *)
Definition advance (state : loc) : M unit :=
  s ← descriptor state;
  write_descriptor state (State.next s);;
  emit (Advance state).

(** The last two lines of [_performStateChange].  Reading [fn] fails
    on [undefined] and finds nothing on an inherited value, and calling
    [undefined.call] fails in turn: a [TypeError] either way. *)
Definition callHandler (c : cid) (state : loc) : M unit :=
  self ← controller c;
  match _currentState self with
  | None => throw TypeError
  | Some now =>
      copy ← descriptor now;
      match _states self !! JS.to_str (State.getName copy) with
      | None => throw TypeError
      | Some stateMeta =>
          match StateMeta.fn stateMeta with
          | FnNotCallable _ => throw TypeError
          | FnCallable h =>
              s ← descriptor state;
              emit (Handler c (JS.to_str (State.getName copy)));;
              lift_effect (call h c (State.params s))
          end
      end
  end.

Definition _performStateChange (c : cid) (state : loc) : M unit :=
  _setCurrentState c state;;
  advance state;;
  callHandler c state.

(** The [for] loop of [_propagateState] and the warning after it;
    [delegate] is the method [delegateState] of the children. *)
Fixpoint scanDownlinks (delegate : cid → Arg → M RetVal) (self : Controller)
    (name : option string) (state : loc) (downlinks : list cid) : M unit :=
  match downlinks with
  | [] =>
      if JS.truthy name && debug
      then emit (Warn (NoChildDeclared (name_ self) (JS.to_str name)))
      else mret tt
  | x :: rest =>
      σ ← get;
      match nodes σ !! x with
      | None => stuck Dangling
      | Some (NJoint _ _) => scanDownlinks delegate self name state rest
      | Some (NController curr) =>
          if negb (JS.truthy name) then
            match _defaultState curr with
            | Some d =>
                s ← descriptor state;
                if stateRegistry.isRegistered (State.fullName s +:+ "." +:+ DefaultState.name d)
                then delegate x (ArgState state);; mret tt
                else scanDownlinks delegate self name state rest
            | None => scanDownlinks delegate self name state rest
            end
          else if hasState (_states curr) (JS.to_str name)
          then delegate x (ArgState state);; mret tt
          else scanDownlinks delegate self name state rest
      end
  end.

Definition _propagateState (delegate : cid → Arg → M RetVal) (c : cid) (state : loc)
    : M unit :=
  _setCurrentState c state;;
  advance state;;
  s ← descriptor state;
  self ← controller c;
  scanDownlinks delegate self (State.getName s) state (_downlinks self).

(** The first lines of [delegateState]: which descriptor is meant.  A
    bag without [$info] is taken for a state and has no [getName]. *)
Definition argState (σ : Store) (a : Arg) : option loc :=
  match a with
  | ArgState l => Some l
  | ArgNone => current σ
  | ArgBag p =>
      match p !! "$info" with
      | Some (VInfo newState _) => Some newState
      | _ => None
      end
  end.

Definition normalize (a : Arg) : M loc :=
  σ ← get;
  match argState σ a with
  | Some l => mret l
  | None => throw TypeError
  end.

(** The synchronisation of the full name that ends [delegateState]. *)
Definition syncFullName (c : cid) (state : loc) (name : string) : M unit :=
  self ← controller c;
  σ ← get;
  if bool_decide (current σ = Some state) then
    match _currentState self with
    | None => mret tt
    | Some now =>
        copy ← descriptor now;
        if bool_decide (State.getName copy = Some name) then
          s ← descriptor state;
          write_descriptor now (State.setFullName (State.fullName s) copy)
        else mret tt
    end
  else mret tt.

(** The body of [delegateState], the recursive calls being [delegate]. *)
Definition delegateState_body (delegate : cid → Arg → M RetVal) (c : cid) (a : Arg)
    : M RetVal :=
  emit (Delegated c a);;
  state ← normalize a;
  _fillStateIfEmpty c state;;
  s ← descriptor state;
  self ← controller c;
  let name := State.getName s in
  if negb (JS.truthy name) then
    (if debug && negb (bool_decide (_nrStates self = O))
     then emit (Warn (NoDefaultState (name_ self)))
     else mret tt);;
    mret RUndefined
  else if negb (hasState (_states self) (JS.to_str name)) then
    (if debug
     then emit (Warn (UnknownState (JS.to_str name) (name_ self)))
     else mret tt);;
    mret RUndefined
  else
    σ ← get;
    same ← lift_result (_isSameState σ self s None);
    (if negb same then _performStateChange c state
     else _propagateState delegate c state);;
    syncFullName c state (JS.to_str name);;
    mret (RThis c).

Fixpoint delegateState (fuel : nat) (c : cid) (a : Arg) : M RetVal :=
  match fuel with
  | O => stuck OutOfFuel
  | S fuel' => delegateState_body (delegateState fuel') c a
  end.

(** [setState] up to its last line: either it has returned, or it is
    about to delegate a descriptor. *)
Inductive Pending :=
| Returned (r : RetVal)
| ToDelegate (state : loc).

Definition setState_prepare (fuel : nat) (c : cid) (name : option string)
    (params options : option Params) : M Pending :=
  σ ← get;
  stateMeta ← lift_result (resolve_with fuel σ c name params);
  match Resolved.name stateMeta with
  | None =>
      lift_effect (stateRegistry.setCurrent (Resolved.fullName stateMeta)
                     (Resolved.params stateMeta) options);;
      mret (Returned (RThis c))
  | Some localName =>
      if stateRegistry.isRegistered (Resolved.fullName stateMeta) then
        changed ← lift_effect (stateRegistry.setCurrent (Resolved.fullName stateMeta)
                                 (Resolved.params stateMeta) options);
        if (changed : bool) then mret (Returned (RThis c))
        else
          σ ← get;
          match current σ with
          | None => throw TypeError
          | Some state =>
              s ← descriptor state;
              write_descriptor state (State.seekTo (Some localName) s);;
              mret (ToDelegate state)
          end
      else
        self ← controller c;
        state ← alloc (State.create localName (Resolved.params stateMeta));
        s ← descriptor state;
        write_descriptor state
          (State.setParams
             (<["$info" := VInfo state (_previousState self)]> (State.params s)) s);;
        mret (ToDelegate state)
  end.

Definition setState (fuel : nat) (c : cid) (name : option string)
    (params options : option Params) : M RetVal :=
  p ← setState_prepare fuel c name params options;
  match p with
  | Returned r => mret r
  | ToDelegate state => delegateState fuel c (ArgState state)
  end.

(** The world [delegateState] is in when it tests the name: the call is
    logged and the descriptor is filled. *)
Definition entered (c : cid) (a : Arg) (state : loc) (self : Controller) (s : State.t)
    (w : World) : World :=
  {| store := set_heap (<[state := fillState self s]> (heap (store w))) (store w);
     trace := trace w ++ [Delegated c a] |}.

(** The world once [_setCurrentState] has run, and once [state.next()]
    has run after it. *)
Definition committed (c : cid) (self : Controller) (s : State.t) (w : World) : World :=
  let now := fresh (dom (heap (store w))) in
  {| store := {| heap := <[now := State.clone s]> (heap (store w));
                 nodes := <[c := NController (commit self now)]> (nodes (store w));
                 current := current (store w) |};
     trace := trace w ++ [Commit c (_currentState self) now] |}.

Definition advanced (state : loc) (s : State.t) (w : World) : World :=
  {| store := set_heap (<[state := State.next s]> (heap (store w))) (store w);
     trace := trace w ++ [Advance state] |}.

(** Child [x] is a controller whose state table declares [name]. *)
Definition declares (σ : Store) (name : string) (x : cid) : bool :=
  match nodes σ !! x with
  | Some (NController curr) => bool_decide (is_Some (_states curr !! name))
  | _ => false
  end.

(** Child [x] is a controller whose state table has no entry [name] of
    its own but inherits a value under that name. *)
Definition inherits (σ : Store) (name : string) (x : cid) : bool :=
  match nodes σ !! x with
  | Some (NController curr) =>
      bool_decide (_states curr !! name = None) && inheritedValue (_states curr) name
  | _ => false
  end.

(** Child [x] is a node of the tree that neither declares nor inherits
    [name]: the scan passes it over. *)
Definition passed_over (σ : Store) (name : string) (x : cid) : Prop :=
  is_Some (nodes σ !! x) ∧ declares σ name x = false ∧ inherits σ name x = false.

(** The ancestor walk from [ancestor] comes to an end within [n] turns:
    it leaves the tree, meets a joint or a controller in no state, or
    (one turn) meets a controller whose current state is in the store
    and goes on from its parent. *)
Inductive walk_ends (σ : Store) : option cid → nat → Prop :=
| walk_ends_root n :
    walk_ends σ None n
| walk_ends_joint a uplink downlinks n :
    nodes σ !! a = Some (NJoint uplink downlinks) →
    walk_ends σ (Some a) n
| walk_ends_idle a k n :
    nodes σ !! a = Some (NController k) →
    _currentState k = None →
    walk_ends σ (Some a) n
| walk_ends_step a k l ancestorState n :
    nodes σ !! a = Some (NController k) →
    _currentState k = Some l →
    heap σ !! l = Some ancestorState →
    walk_ends σ (_uplink k) n →
    walk_ends σ (Some a) (S n).

(** The current state of [self], if any, is in the store. *)
Definition in_store (σ : Store) (self : Controller) : Prop :=
  ∀ l, _currentState self = Some l → is_Some (heap σ !! l).

End Engine.

(** ** A small application, for concrete runs *)

Module Demo.

(** An authority that accepts non-empty names without blanks, knows the
    path [app.list], and reports a change exactly when the requested
    full name or parameters differ from those of its current
    descriptor, which it then replaces by a new one. *)
Definition registry : stateRegistry.t := {|
  stateRegistry.isValid := λ s,
    negb (bool_decide (s = "")) && negb (bool_decide (is_Some (JS.indexOf " "%char s)));
  stateRegistry.isRegistered := λ s, bool_decide (s = "app.list");
  stateRegistry.setCurrent := λ fullName params _ σ,
    match current σ ≫= λ l, heap σ !! l with
    | Some s =>
        if bool_decide (State.fullName s = fullName ∧ State.params s = params)
        then Done false σ
        else
          let l := fresh (dom (heap σ)) in
          Done true {| heap := <[l := State.create fullName params]> (heap σ);
                       nodes := nodes σ; current := Some l |}
    | None =>
        let l := fresh (dom (heap σ)) in
        Done true {| heap := <[l := State.create fullName params]> (heap σ);
                     nodes := nodes σ; current := Some l |}
    end;
  stateRegistry.generateUrl := λ fullName _ _, "/" +:+ fullName
|}.

(** Handlers that do nothing, in a debug and in a release build. *)
Definition debug_build : Runtime := {| debug := true; call := λ _ _ _ σ, Done tt σ |}.
Definition release_build : Runtime := {| debug := false; call := λ _ _ _ σ, Done tt σ |}.

(** A list controller: [list], a wildcard [edit] and [show(id)],
    default [list] on page 1. *)
Definition items : Declaration := {|
  d_name := "ItemsController";
  d_states := [("list", HName "_list"); ("edit(*)", HFunction 1); ("show(id)", HFunction 2)];
  d_defaultState := Some (DObject "list" {["page" := VNum 1]});
  d_methods := {["_list" := PFunction 0]}
|}.

Definition items_states : gmap string StateMeta.t :=
  <["show" := StateMeta.mk false ["id"] (FnCallable 2)]>
    (<["edit" := StateMeta.mk true [] (FnCallable 1)]>
       (<["list" := StateMeta.mk false [] (FnCallable 0)]> ∅)).

Definition items_controller (now : option loc) : Controller := {|
  name_ := "ItemsController"; _uplink := None; _downlinks := [];
  _states := items_states; _nrStates := 3;
  _defaultState := Some (DefaultState.mk "list" {["page" := VNum 1]});
  _currentState := now; _previousState := None
|}.

(** The controller is showing [edit] with [page = 3] and [id = 7]. *)
Definition editing : Store := {|
  heap := {[ 0 := State.mk "edit" 0 (<["page" := VNum 3]> {["id" := VNum 7]}) ]};
  nodes := {[ 0 := NController (items_controller (Some 0)) ]};
  current := None
|}.

(** Declarations with one structural error each, and one with all. *)
Definition bad_grammar : Declaration := {|
  d_name := "Bad"; d_states := [("my state", HFunction 0)];
  d_defaultState := None; d_methods := ∅ |}.
Definition bad_dotted : Declaration := {|
  d_name := "Bad"; d_states := [("a.b", HFunction 0)];
  d_defaultState := None; d_methods := ∅ |}.
Definition bad_handler : Declaration := {|
  d_name := "Bad"; d_states := [("home", HName "missing")];
  d_defaultState := None; d_methods := ∅ |}.
Definition bad_default : Declaration := {|
  d_name := "Bad"; d_states := [("home", HFunction 0)];
  d_defaultState := Some (DString "nothere"); d_methods := ∅ |}.
Definition bad_everything : Declaration := {|
  d_name := "Bad"; d_states := [("my.bad state", HOther true)];
  d_defaultState := Some (DString ""); d_methods := ∅ |}.

(** Two [list] descriptors that differ in their parameters. *)
Definition listing : Store := {|
  heap := {[ 0 := State.mk "list" 0 {["page" := VNum 1]};
             1 := State.mk "list" 0 {["page" := VNum 2]} ]};
  nodes := {[ 0 := NController (items_controller (Some 0)) ]};
  current := None
|}.


(** A tree: the application controller with a view and two controllers
    that both declare [item]; two descriptors, the first of which the
    authority holds as current. *)
Definition leaf (name : string) : Controller := {|
  name_ := name; _uplink := Some 0; _downlinks := [];
  _states := {["item" := StateMeta.mk false [] (FnCallable 0)]}; _nrStates := 1;
  _defaultState := None; _currentState := None; _previousState := None
|}.

Definition app : Controller := {|
  name_ := "AppController"; _uplink := None; _downlinks := [1; 2; 3];
  _states := {["app" := StateMeta.mk false [] (FnCallable 0)]}; _nrStates := 1;
  _defaultState := None; _currentState := None; _previousState := None
|}.

Definition tree : World := {|
  store := {|
    heap := {[ 0 := State.mk "app.item" 0 ∅; 1 := State.mk "app.other" 0 ∅ ]};
    nodes := {[ 0 := NController app; 1 := NJoint (Some 0) [];
                2 := NController (leaf "FirstController");
                3 := NController (leaf "SecondController") ]};
    current := Some 0
  |};
  trace := []
|}.


(** A shop: the application shows [app], the items controller below it
    shows nothing yet.  The authority holds [app.list] as current in
    the first world and nothing in the second. *)
Definition shop_nodes : gmap cid Node :=
  {[ 0 := NController {| name_ := "AppController"; _uplink := None; _downlinks := [1];
                         _states := {["app" := StateMeta.mk false [] (FnCallable 0)]};
                         _nrStates := 1; _defaultState := None;
                         _currentState := Some 0; _previousState := None |};
     1 := NController {| name_ := "ItemsController"; _uplink := Some 0; _downlinks := [];
                         _states := items_states; _nrStates := 3;
                         _defaultState := Some (DefaultState.mk "list" {["page" := VNum 1]});
                         _currentState := None; _previousState := None |} ]}.

Definition shop : World := {|
  store := {| heap := {[ 0 := State.mk "app.list" 0 ∅; 1 := State.mk "app.list" 0 ∅ ]};
              nodes := shop_nodes; current := Some 1 |};
  trace := []
|}.

Definition shop_elsewhere : World := {|
  store := {| heap := {[ 0 := State.mk "app.list" 0 ∅ ]};
              nodes := shop_nodes; current := None |};
  trace := []
|}.


(** The items controller alone, asked for a state it does not declare:
    before [setState], and when [setState] is about to delegate the
    descriptor it has made. *)
Definition asking : World := {|
  store := {| heap := ∅; nodes := {[ 0 := NController (items_controller None) ]};
              current := None |};
  trace := []
|}.

Definition asked : World := {|
  store := {| heap := {[ 0 := State.mk "nothere" 0 {["$info" := VInfo 0 None]} ]};
              nodes := {[ 0 := NController (items_controller None) ]};
              current := None |};
  trace := []
|}.

(** The same controller, handed a descriptor named [toString], a state
    it does not declare either. *)
Definition asked_toString : World := {|
  store := {| heap := {[ 0 := State.mk "toString" 0 ∅ ]};
              nodes := {[ 0 := NController (items_controller None) ]};
              current := None |};
  trace := []
|}.


(** A declaration with two keys of the same local name. *)
Definition twice : Declaration := {|
  d_name := "Twice";
  d_states := [("edit(*)", HFunction 1); ("edit(id)", HFunction 2)];
  d_defaultState := None; d_methods := ∅
|}.

Definition twice_controller : Controller := {|
  name_ := "Twice"; _uplink := None; _downlinks := [];
  _states := {["edit" := StateMeta.mk false ["id"] (FnCallable 2)]}; _nrStates := 2;
  _defaultState := None; _currentState := None; _previousState := None
|}.

(** The application controller alone, and a descriptor without name. *)
Definition nameless : World := {|
  store := {| heap := {[ 0 := State.mk "" 0 ∅ ]};
              nodes := {[ 0 := NController app ]}; current := None |};
  trace := []
|}.

(** The application with a view and the items controller below it; the
    descriptor [app] has no segment left for the children. *)
Definition home : World := {|
  store := {|
    heap := {[ 0 := State.mk "app" 0 ∅ ]};
    nodes := {[ 0 := NController {| name_ := "AppController"; _uplink := None;
                                    _downlinks := [1; 2];
                                    _states := {["app" := StateMeta.mk false [] (FnCallable 0)]};
                                    _nrStates := 1; _defaultState := None;
                                    _currentState := None; _previousState := None |};
                1 := NJoint (Some 0) [];
                2 := NController (items_controller None) ]};
    current := Some 0
  |};
  trace := []
|}.


End Demo.

(** ** Notions used to state further properties *)

(** Every character of [s] satisfies [p]. *)
Fixpoint all_chars (p : ascii → bool) (s : string) : bool :=
  match s with
  | EmptyString => true
  | String a s' => p a && all_chars p s'
  end.

(** A character of the ASCII range (code below 128). *)
Definition ascii_char (a : ascii) : bool :=
  match a with
  | Ascii _ _ _ _ _ _ _ high => negb high
  end.

(** A name written in ASCII characters that satisfy [p]. *)
Definition ascii_name (p : ascii → bool) (s : string) : Prop :=
  all_chars p s = true ∧ all_chars ascii_char s = true.

(** A character of a parameter name: no comma, no white space, no
    closing parenthesis. *)
Definition item_char (a : ascii) : bool :=
  negb (bool_decide (a = ","%char)) && negb (JS.whitespace a)
  && negb (bool_decide (a = ")"%char)).

(** White space that stays on the line. *)
Definition blank_char (a : ascii) : bool :=
  JS.whitespace a && negb (JS.line_terminator a).

(** A separator: one comma with white space around it. *)
Definition separator (sep : string) : Prop :=
  ∃ before after,
    sep = before +:+ "," +:+ after
    ∧ all_chars blank_char before = true ∧ all_chars blank_char after = true.

(** [items.join(sep)] *)
Fixpoint join (sep : string) (items : list string) : string :=
  match items with
  | [] => ""
  | [x] => x
  | x :: rest => x +:+ sep +:+ join sep rest
  end.

Section Declared.

Context {authority : stateRegistry.t} {runtime : Runtime}.

(** The entry [_parseStates] stores for a declared state. *)
Definition stateMetaOf (self : Declaration) (entry : string * HandlerDecl) : StateMeta.t :=
  StateMeta.mk
    (bool_decide (RegExp.stateParams entry.1 = Some "*"))
    (match RegExp.stateParams entry.1 with
     | Some g => if bool_decide (g = "*") then [] else RegExp.split_commas g
     | None => []
     end)
    (resolveHandler self entry.2).

(** The last declared state, in enumeration order, whose local name is
    [n]. *)
Fixpoint declared (n : string) (entries : list (string * HandlerDecl))
    : option (string * HandlerDecl) :=
  match entries with
  | [] => None
  | entry :: rest =>
      match declared n rest with
      | Some later => Some later
      | None => if bool_decide (localName entry.1 = n) then Some entry else None
      end
  end.

(** Child [x] is a controller with a default state whose path below
    [fullName] the authority has registered. *)
Definition takes_default (σ : Store) (fullName : string) (x : cid) : bool :=
  match nodes σ !! x with
  | Some (NController curr) =>
      match _defaultState curr with
      | Some d => stateRegistry.isRegistered (fullName +:+ "." +:+ DefaultState.name d)
      | None => false
      end
  | _ => false
  end.

(** A node without what a delegation may change of it. *)
Definition frame_of (n : Node) : Node :=
  match n with
  | NController k =>
      NController {| name_ := name_ k; _uplink := _uplink k; _downlinks := _downlinks k;
                     _states := _states k; _nrStates := _nrStates k;
                     _defaultState := _defaultState k;
                     _currentState := None; _previousState := None |}
  | NJoint uplink downlinks => NJoint uplink downlinks
  end.

(** Two stores with the same tree, tables, default states and
    authority's reference. *)
Definition same_frame (σ σ' : Store) : Prop :=
  current σ' = current σ ∧ ∀ x, frame_of <$> nodes σ' !! x = frame_of <$> nodes σ !! x.

(** A computation that keeps the frame. *)
Definition frames {A} (m : M A) : Prop :=
  ∀ w w', final_world (m w) = Some w' → same_frame (store w) (store w').

(** Handlers that keep the frame. *)
Definition handlers_keep_frame : Prop :=
  ∀ h c p σ,
    match call h c p σ with
    | Done _ σ' => same_frame σ σ'
    | Raised _ σ' => same_frame σ σ'
    end.


End Declared.


(** * Properties *)

Section Properties.

Context {authority : stateRegistry.t} {runtime : Runtime}.

(** ** The name resolver *)

Lemma mixIn_empty (params : Params) : Mout.mixIn ∅ (Some params) = params.
Proof. unfold Mout.mixIn. apply (right_id_L ∅ (∪)). Qed.

(** C8: a name that starts with [/] resolves to the rest of the name as
    full name, without a local name and without any parameter; with the
    explicit parameters of [generateUrl] or [setState] mixed in, the
    parameters are exactly the explicit ones.  This holds in every
    store, whatever the controller and its ancestors are showing. *)
Theorem C8_absolute_resolution (fuel : nat) (σ : Store) (c : cid) (rest : string)
    (explicit : option Params) (absolute : bool) :
  _resolveFullState fuel σ c (Some (String "/"%char rest)) = Ok (Resolved.mk None rest ∅)
  ∧ resolve_with fuel σ c (Some (String "/"%char rest)) explicit
    = Ok (Resolved.mk None rest (default ∅ explicit))
  ∧ generateUrl fuel σ c (Some (String "/"%char rest)) explicit absolute
    = Ok (stateRegistry.generateUrl rest (default ∅ explicit) absolute).
Proof.
  assert (Hr : _resolveFullState fuel σ c (Some (String "/"%char rest))
               = Ok (Resolved.mk None rest ∅)) by (destruct fuel; reflexivity).
  assert (Hm : Mout.mixIn ∅ explicit = default ∅ explicit)
    by (destruct explicit; [apply mixIn_empty | reflexivity]).
  split; [exact Hr |].
  unfold generateUrl, resolve_with. rewrite Hr. cbn. rewrite Hm. done.
Qed.

(** What the local branch answers when no name was asked for and the
    controller declares a default state: the default's name, the full
    name rebuilt by the walk (the default's name if that is empty), and
    the default's parameters laid over the inherited ones. *)
Lemma resolve_local_default (fuel : nat) (σ : Store) (self : Controller)
    (d : DefaultState.t) (fullName : string) (start inherited : Params) :
  match _currentState self with
  | Some l => State.params <$> heap σ !! l
  | None => Some ∅
  end = Some start →
  walk_ancestors fuel σ (_uplink self) "" start = Ok (fullName, inherited) →
  _defaultState self = Some d →
  resolve_local fuel σ self ""
  = Ok (Resolved.mk (Some (DefaultState.name d))
          (if bool_decide (fullName = "") then DefaultState.name d else fullName)
          (DefaultState.params d ∪ inherited)).
Proof.
  intros Hstart Hwalk Hd. unfold resolve_local.
  destruct (_currentState self) as [l|].
  - destruct (heap σ !! l) as [s|]; [| discriminate].
    injection Hstart as <-. rewrite mixIn_empty, Hwalk, Hd. reflexivity.
  - injection Hstart as <-. rewrite Hwalk, Hd. reflexivity.
Qed.


(** Hence every parameter of the default state is in the answer with
    the default's value, whatever was inherited under that key. *)
Lemma resolve_local_default_wins (fuel : nat) (σ : Store) (self : Controller)
    (d : DefaultState.t) (fullName : string) (start inherited : Params)
    (state : Resolved.t) (key : string) (v : Value) :
  match _currentState self with
  | Some l => State.params <$> heap σ !! l
  | None => Some ∅
  end = Some start →
  walk_ancestors fuel σ (_uplink self) "" start = Ok (fullName, inherited) →
  _defaultState self = Some d →
  resolve_local fuel σ self "" = Ok state →
  DefaultState.params d !! key = Some v →
  Resolved.params state !! key = Some v.
Proof.
  intros Hstart Hwalk Hd Hresolve Hkey.
  rewrite (resolve_local_default fuel σ self d fullName start inherited Hstart Hwalk Hd)
    in Hresolve.
  injection Hresolve as <-. cbn. by apply lookup_union_Some_l.
Qed.

(** ** Construction *)

Lemma parseState_never_halts (self : Declaration) (states : gmap string StateMeta.t)
    (entry : string * HandlerDecl) (f : Failure) :
  parseState self states entry ≠ Halt f.
Proof.
  unfold parseState.
  repeat match goal with |- context [if ?b then _ else _] => destruct b end; discriminate.
Qed.

Lemma parseState_debug_rejects (self : Declaration) (states : gmap string StateMeta.t)
    (entry : string * HandlerDecl) :
  debug = true → ill_declared self entry → ∃ e, parseState self states entry = Raise e.
Proof.
  intros Hdebug Hbad. unfold parseState. rewrite Hdebug. cbn [andb].
  destruct (stateRegistry.isValid (localName entry.1)) eqn:Hvalid; cbn [negb]; [| eauto].
  case_bool_decide as Hdot; [eauto |].
  destruct (callable (resolveHandler self entry.2)) eqn:Hfn; cbn [negb]; [| eauto].
  destruct Hbad as [Hbad | [Hbad | Hbad]]; [congruence | done | congruence].
Qed.

Lemma parseStates_loop_debug_rejects (self : Declaration) (entries : list (string * HandlerDecl)) :
  debug = true → Exists (ill_declared self) entries →
  ∀ states, ∃ e, parseStates_loop self states entries = Raise e.
Proof.
  intros Hdebug Hbad. induction Hbad as [entry rest Hentry | entry rest _ IH]; intros states; cbn.
  - destruct (parseState_debug_rejects self states entry Hdebug Hentry) as [e ->]. eauto.
  - destruct (parseState self states entry) as [states' | e | f] eqn:Hstep; [apply IH | eauto |].
    exfalso. exact (parseState_never_halts _ _ _ _ Hstep).
Qed.

(** Without the debug flag the constructor checks nothing and always
    completes. *)
Lemma parseStates_loop_release_accepts (self : Declaration)
    (entries : list (string * HandlerDecl)) :
  debug = false → ∀ states, ∃ states', parseStates_loop self states entries = Ok states'.
Proof.
  intros Hdebug. induction entries as [| entry rest IH]; intros states; cbn; [eauto |].
  unfold parseState. rewrite Hdebug. cbn [andb]. apply IH.
Qed.

Lemma construct_release_accepts (self : Declaration) :
  debug = false → ∃ k, construct self = Ok k.
Proof.
  intros Hdebug. unfold construct, _parseStates.
  destruct (parseStates_loop_release_accepts self (d_states self) Hdebug ∅) as [states ->].
  unfold _parseDefaultState. rewrite Hdebug.
  destruct (d_defaultState self); cbn [andb]; eauto.
Qed.

Lemma relative_is_not_absolute (name : string) :
  JS.startsWith name "../" = true → JS.charAt0_is "/"%char name = false.
Proof.
  destruct name as [| a name]; [discriminate |].
  cbn [JS.startsWith JS.charAt0_is].
  case_bool_decide as Hdot; [subst a; reflexivity | discriminate].
Qed.

(** A name that starts with [../] cannot be resolved by a controller
    without a parent controller, in any build: a debug build raises the
    resolver's error, another build fails on the read of the missing
    parent's method. *)
Lemma relative_without_parent (fuel : nat) (σ : Store) (c : cid) (self : Controller)
    (name : string) :
  controller_at σ c = Some self →
  JS.startsWith name "../" = true →
  (∀ u, _uplink self = Some u → controller_at σ u = None) →
  _resolveFullState fuel σ c (Some name)
  = Raise (if debug then UnresolvableRelativeState name (name_ self) else TypeError).
Proof.
  intros Hself Hrel Hup.
  destruct fuel; simpl;
    rewrite (relative_is_not_absolute _ Hrel); unfold controller_of;
    rewrite Hself, Hrel;
    (destruct (_uplink self) as [u|]; [rewrite (Hup u eq_refl) |]);
    cbn; destruct debug; reflexivity.
Qed.

(** C2, as the code has it.  In a debug build the constructor throws
    for a declared state whose local name is refused by the authority's
    grammar, or contains a dot, or whose handler is not callable, and
    for a default state whose name is empty or under which the parsed
    table holds nothing, neither an entry nor an inherited value.  In
    every build, resolving a name that starts with [../] in a controller
    without a parent controller throws: the resolver's error in a debug
    build, a [TypeError] otherwise. *)
Theorem C2_structural_errors :
  (debug = true →
   (∀ self, Exists (ill_declared self) (d_states self) → ∃ e, construct self = Raise e)
   ∧ (∀ self states nr decl,
        _parseStates self = Ok (states, nr) →
        d_defaultState self = Some decl →
        DefaultState.name (defaultOf decl) = ""
        ∨ hasState states (DefaultState.name (defaultOf decl)) = false →
        construct self = Raise (EmptyDefaultState (d_name self))
        ∨ construct self = Raise (NonexistentDefaultState (d_name self))))
  ∧ (∀ fuel σ c self name,
       controller_at σ c = Some self →
       JS.startsWith name "../" = true →
       (∀ u, _uplink self = Some u → controller_at σ u = None) →
       _resolveFullState fuel σ c (Some name)
       = Raise (if debug then UnresolvableRelativeState name (name_ self) else TypeError)).
Proof.
  split; [intros Hdebug; split |].
  - intros self Hbad. unfold construct, _parseStates.
    destruct (parseStates_loop_debug_rejects self _ Hdebug Hbad ∅) as [e ->]. eauto.
  - intros self states nr decl Hparse Hdecl Hbad. unfold construct.
    rewrite Hparse. unfold _parseDefaultState. rewrite Hdecl, Hdebug. cbn [andb].
    case_bool_decide as Hempty; [by left |].
    destruct (hasState states (DefaultState.name (defaultOf decl))) eqn:Hhas;
      cbn [negb]; [| by right].
    destruct Hbad; done.
  - intros fuel σ c self name. apply relative_without_parent.
Qed.


(** ** The equality decider *)

Lemma isEqual_name_only (base state : State.t) :
  State.getName base = State.getName state → State.isEqual base state (Some []) = true.
Proof.
  intros Hname. unfold State.isEqual. rewrite bool_decide_eq_true_2 by done. reflexivity.
Qed.

(** C3: a state whose table entry is a wildcard is never the same as
    any base, the state itself included; a state whose entry has no
    relevant parameter is the same as every base of the same name,
    whatever the parameters; without a base and without a current state
    nothing is the same.  The parser makes a wildcard entry from a key
    whose parenthesised part is a star, and an entry without relevant
    parameters from a key without a parenthesised part. *)
Theorem C3_isSameState_wildcard_and_name_only (σ : Store) (self : Controller) (state : State.t) :
  (∀ stateMeta baseState,
     _states self !! JS.to_str (State.getName state) = Some stateMeta →
     StateMeta.wildcard stateMeta = true →
     _isSameState σ self state baseState = Ok false)
  ∧ (∀ stateMeta baseState b base,
       _states self !! JS.to_str (State.getName state) = Some stateMeta →
       StateMeta.wildcard stateMeta = false →
       StateMeta.params stateMeta = [] →
       match baseState with Some _ => baseState | None => _currentState self end = Some b →
       heap σ !! b = Some base →
       State.getName base = State.getName state →
       _isSameState σ self state baseState = Ok true)
  ∧ (_currentState self = None → _isSameState σ self state None = Ok false)
  ∧ (∀ decl states key func states',
       RegExp.stateParams key = Some "*" →
       parseState decl states (key, func) = Ok states' →
       ∃ fn, states' !! localName key = Some (StateMeta.mk true [] fn))
  ∧ (∀ decl states key func states',
       RegExp.stateParams key = None →
       parseState decl states (key, func) = Ok states' →
       ∃ fn, states' !! key = Some (StateMeta.mk false [] fn)).
Proof.
  split; [| split; [| split; [| split]]].
  - intros stateMeta baseState Hmeta Hwild. unfold _isSameState.
    destruct baseState as [b|]; [| destruct (_currentState self) as [b|]; [| done]];
      rewrite Hmeta; cbn; rewrite Hwild; reflexivity.
  - intros stateMeta baseState b base Hmeta Hwild Hparams Hbase Hb Hname.
    unfold _isSameState.
    replace (match baseState with Some b0 => Some b0 | None => _currentState self end)
      with (Some b) by (destruct baseState; done).
    rewrite Hmeta. cbn. rewrite Hwild, Hb, Hparams.
    by rewrite isEqual_name_only.
  - intros Hnone. unfold _isSameState. by rewrite Hnone.
  - intros decl states key func states' Hmatch Hparse. unfold parseState in Hparse.
    cbn [fst snd] in Hparse. rewrite Hmatch in Hparse.
    repeat match type of Hparse with
           | (if ?b then _ else _) = _ => destruct b; [discriminate |]
           end.
    injection Hparse as <-. rewrite lookup_insert_eq. eauto.
  - intros decl states key func states' Hmatch Hparse. unfold parseState in Hparse.
    cbn [fst snd] in Hparse. unfold localName in Hparse. rewrite Hmatch in Hparse.
    repeat match type of Hparse with
           | (if ?b then _ else _) = _ => destruct b; [discriminate |]
           end.
    injection Hparse as <-. rewrite lookup_insert_eq. eauto.
Qed.


(** ** Running the engine *)

Lemma run_bind {A B} (m : M A) (f : A → M B) (w w' : World) (a : A) :
  m w = Ret a w' → (m ≫= f) w = f a w'.
Proof. intros H. unfold mbind, M_bind. by rewrite H. Qed.

Lemma run_descriptor (l : loc) (s : State.t) (w : World) :
  heap (store w) !! l = Some s → descriptor l w = Ret s w.
Proof. intros H. unfold descriptor, get, mbind, M_bind. by rewrite H. Qed.

Lemma run_controller (c : cid) (self : Controller) (w : World) :
  controller_at (store w) c = Some self → controller c w = Ret self w.
Proof. intros H. unfold controller, get, mbind, M_bind. by rewrite H. Qed.

Lemma run_normalize (a : Arg) (state : loc) (w : World) :
  argState (store w) a = Some state → normalize a w = Ret state w.
Proof. intros H. unfold normalize, get, mbind, M_bind. by rewrite H. Qed.

Lemma run_fillStateIfEmpty (c : cid) (state : loc) (self : Controller) (s : State.t)
    (w : World) :
  controller_at (store w) c = Some self →
  heap (store w) !! state = Some s →
  _fillStateIfEmpty c state w
  = Ret tt {| store := set_heap (<[state := fillState self s]> (heap (store w))) (store w);
              trace := trace w |}.
Proof.
  intros Hc Hs. unfold _fillStateIfEmpty.
  rewrite (run_bind _ _ _ _ _ (run_controller _ _ _ Hc)).
  rewrite (run_bind _ _ _ _ _ (run_descriptor _ _ _ Hs)).
  reflexivity.
Qed.

Lemma run_delegateState_entry (delegate : cid → Arg → M RetVal) (c : cid) (a : Arg)
    (state : loc) (self : Controller) (s : State.t) (w : World) :
  argState (store w) a = Some state →
  controller_at (store w) c = Some self →
  heap (store w) !! state = Some s →
  delegateState_body delegate c a w
  = (let name := State.getName (fillState self s) in
     if negb (JS.truthy name) then
       (if debug && negb (bool_decide (_nrStates self = O))
        then emit (Warn (NoDefaultState (name_ self)))
        else mret tt);;
       mret RUndefined
     else if negb (hasState (_states self) (JS.to_str name)) then
       (if debug
        then emit (Warn (UnknownState (JS.to_str name) (name_ self)))
        else mret tt);;
       mret RUndefined
     else
       σ ← get;
       same ← lift_result (_isSameState σ self (fillState self s) None);
       (if negb same then _performStateChange c state
        else _propagateState delegate c state);;
       syncFullName c state (JS.to_str name);;
       mret (RThis c)) (entered c a state self s w).
Proof.
  intros Ha Hc Hs. unfold delegateState_body.
  erewrite (run_bind (emit _)); [| reflexivity].
  erewrite (run_bind (normalize a)); [| apply run_normalize; exact Ha].
  erewrite (run_bind (_fillStateIfEmpty c state));
    [| apply run_fillStateIfEmpty; [exact Hc | exact Hs]].
  erewrite (run_bind (descriptor state)); [| apply run_descriptor; apply lookup_insert_eq].
  erewrite (run_bind (controller c)); [| apply run_controller; exact Hc].
  reflexivity.
Qed.




(** [!!this._states[name]] for a name the table neither declares nor
    inherits, and for a declared one. *)
Lemma hasState_declared (states : gmap string StateMeta.t) (name : string) :
  is_Some (states !! name) → hasState states name = true.
Proof. intros [stateMeta H]. unfold hasState. by rewrite H. Qed.

Lemma hasState_false (states : gmap string StateMeta.t) (name : string) :
  hasState states name = false
  ↔ states !! name = None ∧ inheritedValue states name = false.
Proof.
  unfold hasState. destruct (states !! name); split; try done.
  - by intros [? ?].
  - by intros [_ ?].
Qed.

Lemma hasState_plain (states : gmap string StateMeta.t) (name : string) :
  inheritedValue states name = false →
  hasState states name = bool_decide (is_Some (states !! name)).
Proof.
  intros Hplain. unfold hasState. destruct (states !! name) eqn:H.
  - by rewrite bool_decide_eq_true_2.
  - rewrite Hplain, bool_decide_eq_false_2; [done |]. by intros [].
Qed.

(** X20: delegating a descriptor whose local name, once the default
    is filled in, is neither declared in the state table nor inherited
    by it does nothing.  The call returns normally; no node of the tree
    changes, so [_currentState] and [_previousState] are what they
    were; the authority's current descriptor is the same; the log shows
    the call itself and, in a debug build, one [Unknown state] warning,
    hence no handler and no delegation to a child. *)
Theorem X20_unknown_state_is_ignored (fuel : nat) (c : cid) (a : Arg) (w : World)
    (self : Controller) (state : loc) (s : State.t) (name : string) :
  argState (store w) a = Some state →
  controller_at (store w) c = Some self →
  heap (store w) !! state = Some s →
  State.getName (fillState self s) = Some name →
  name ≠ "" →
  _states self !! name = None →
  inheritedValue (_states self) name = false →
  ∃ w',
    delegateState (S fuel) c a w = Ret RUndefined w'
    ∧ nodes (store w') = nodes (store w)
    ∧ controller_at (store w') c = Some self
    ∧ current (store w') = current (store w)
    ∧ trace w' = trace w ++ Delegated c a ::
                   (if debug then [Warn (UnknownState name (name_ self))] else []).
Proof.
  intros Ha Hc Hs Hname Hne Hunknown Hplain. cbn [delegateState].
  rewrite (run_delegateState_entry _ c a state self s w Ha Hc Hs). cbn zeta.
  rewrite Hname. cbn [JS.to_str].
  replace (JS.truthy (Some name)) with true by (destruct name; done).
  cbn [negb]. rewrite (proj2 (hasState_false _ _) (conj Hunknown Hplain)). cbn [negb].
  destruct debug; eexists; (split; [reflexivity |]); cbn;
    rewrite <- ?app_assoc, ?app_nil_r; done.
Qed.



(** ** Commit, then advance *)

Lemma fresh_not_allocated (h : gmap loc State.t) (l : loc) :
  is_Some (h !! l) → l ≠ fresh (dom h).
Proof.
  intros Hl ->. apply elem_of_dom in Hl. exact (is_fresh (dom h) Hl).
Qed.

Lemma clone_eq (s : State.t) : State.clone s = s.
Proof. by destruct s. Qed.

Lemma run_alloc (s : State.t) (w : World) :
  alloc s w
  = Ret (fresh (dom (heap (store w))))
      {| store := set_heap (<[fresh (dom (heap (store w))) := s]> (heap (store w))) (store w);
         trace := trace w |}.
Proof. reflexivity. Qed.

Lemma run_setCurrentState (c : cid) (state : loc) (self : Controller) (s : State.t)
    (w : World) :
  controller_at (store w) c = Some self →
  heap (store w) !! state = Some s →
  _setCurrentState c state w = Ret tt (committed c self s w).
Proof.
  intros Hc Hs. unfold _setCurrentState.
  assert (Hne : state ≠ fresh (dom (heap (store w))))
    by (apply fresh_not_allocated; eauto).
  erewrite (run_bind (controller c)); [| apply run_controller; exact Hc].
  erewrite (run_bind (descriptor state)); [| apply run_descriptor; exact Hs].
  erewrite (run_bind (alloc _)); [| apply run_alloc].
  erewrite (run_bind (write_controller _ _)); [| reflexivity].
  erewrite (run_bind get); [| reflexivity].
  erewrite (run_bind (descriptor state));
    [| apply run_descriptor; cbn; rewrite lookup_insert_ne by done; exact Hs].
  erewrite (run_bind (descriptor _));
    [| apply run_descriptor; cbn; apply lookup_insert_eq].
  rewrite clone_eq, (bool_decide_eq_true_2 (State.fullName s = State.fullName s)) by done.
  rewrite andb_false_r.
  erewrite (run_bind (mret tt)); [| reflexivity].
  unfold committed. rewrite clone_eq. reflexivity.
Qed.

Lemma run_advance (state : loc) (s : State.t) (w : World) :
  heap (store w) !! state = Some s →
  advance state w = Ret tt (advanced state s w).
Proof.
  intros Hs. unfold advance.
  erewrite (run_bind (descriptor state)); [| apply run_descriptor; exact Hs].
  reflexivity.
Qed.

Lemma committed_descriptor (c : cid) (state : loc) (self : Controller) (s : State.t)
    (w : World) :
  heap (store w) !! state = Some s →
  heap (store (committed c self s w)) !! state = Some s.
Proof.
  intros Hs. cbn. rewrite lookup_insert_ne; [exact Hs |].
  intros <-. by apply (fresh_not_allocated (heap (store w)) (fresh (dom (heap (store w))))).
Qed.


(** ** The log only grows *)

Create HintDb appends discriminated.

Lemma appends_ret {A} (a : A) : appends (mret a).
Proof. intros w w' [= <-]. exists []. by rewrite app_nil_r. Qed.

Lemma appends_throw {A} (e : Error) : appends (throw e : M A).
Proof. intros w w' [= <-]. exists []. by rewrite app_nil_r. Qed.

Lemma appends_stuck {A} (f : Failure) : appends (stuck f : M A).
Proof. intros w w' [=]. Qed.

Lemma appends_get : appends get.
Proof. intros w w' [= <-]. exists []. by rewrite app_nil_r. Qed.

Lemma appends_modify (f : Store → Store) : appends (modify f).
Proof. intros w w' [= <-]. exists []. by rewrite app_nil_r. Qed.

Lemma appends_emit (ev : Event) : appends (emit ev).
Proof. intros w w' [= <-]. by exists [ev]. Qed.

Lemma appends_lift_effect {A} (f : Store → Effect A) : appends (lift_effect f).
Proof.
  intros w w'. unfold lift_effect.
  destruct (f (store w)); intros [= <-]; exists []; by rewrite app_nil_r.
Qed.

Lemma appends_lift_result {A} (r : Result A) : appends (lift_result r).
Proof.
  destruct r; [apply appends_ret | apply appends_throw | apply appends_stuck].
Qed.

Lemma appends_bind {A B} (m : M A) (f : A → M B) :
  appends m → (∀ a, appends (f a)) → appends (m ≫= f).
Proof.
  intros Hm Hf w w'. unfold mbind, M_bind.
  destruct (m w) as [a w1 | e w1 | x] eqn:Hrun.
  - intros Hk. destruct (Hm w w1) as [t1 Ht1]; [by rewrite Hrun |].
    destruct (Hf a w1 w' Hk) as [t2 Ht2].
    exists (t1 ++ t2). by rewrite Ht2, Ht1, app_assoc.
  - intros [= <-]. apply (Hm w w1). by rewrite Hrun.
  - discriminate.
Qed.

#[local] Hint Resolve appends_ret appends_throw appends_stuck appends_get appends_modify
  appends_emit appends_lift_effect appends_lift_result : appends.

Ltac appends_step :=
  match goal with
  | |- appends (_ ≫= _) => apply appends_bind; [| intros ?]
  | |- appends (if ?b then _ else _) => destruct b
  | |- appends (match ?x with _ => _ end) => destruct x
  | |- appends (let _ := _ in _) => cbv zeta
  | |- appends _ => solve [auto with appends]
  end.

Lemma appends_descriptor (l : loc) : appends (descriptor l).
Proof. unfold descriptor. repeat appends_step. Qed.

Lemma appends_write_descriptor (l : loc) (s : State.t) : appends (write_descriptor l s).
Proof. apply appends_modify. Qed.

Lemma appends_controller (c : cid) : appends (controller c).
Proof. unfold controller. repeat appends_step. Qed.

Lemma appends_write_controller (c : cid) (k : Controller) : appends (write_controller c k).
Proof. apply appends_modify. Qed.

#[local] Hint Resolve appends_descriptor appends_write_descriptor appends_controller
  appends_write_controller : appends.

Lemma appends_alloc (s : State.t) : appends (alloc s).
Proof. unfold alloc. repeat appends_step. Qed.

#[local] Hint Resolve appends_alloc : appends.

Lemma appends_setCurrentState (c : cid) (state : loc) : appends (_setCurrentState c state).
Proof. unfold _setCurrentState. repeat appends_step. Qed.

Lemma appends_advance (state : loc) : appends (advance state).
Proof. unfold advance. repeat appends_step. Qed.

Lemma appends_callHandler (c : cid) (state : loc) : appends (callHandler c state).
Proof. unfold callHandler. repeat appends_step. Qed.

Lemma appends_fillStateIfEmpty (c : cid) (state : loc) : appends (_fillStateIfEmpty c state).
Proof. unfold _fillStateIfEmpty. repeat appends_step. Qed.

Lemma appends_normalize (a : Arg) : appends (normalize a).
Proof. unfold normalize. repeat appends_step. Qed.

Lemma appends_syncFullName (c : cid) (state : loc) (name : string) :
  appends (syncFullName c state name).
Proof. unfold syncFullName. repeat appends_step. Qed.

#[local] Hint Resolve appends_setCurrentState appends_advance appends_callHandler
  appends_fillStateIfEmpty appends_normalize appends_syncFullName : appends.

Lemma appends_performStateChange (c : cid) (state : loc) :
  appends (_performStateChange c state).
Proof. unfold _performStateChange. repeat appends_step. Qed.

Lemma appends_scanDownlinks (delegate : cid → Arg → M RetVal) (self : Controller)
    (name : option string) (state : loc) (downlinks : list cid) :
  (∀ x a, appends (delegate x a)) →
  appends (scanDownlinks delegate self name state downlinks).
Proof.
  intros Hdelegate. induction downlinks as [| x rest IH]; cbn [scanDownlinks].
  - repeat appends_step.
  - repeat first [exact IH | apply Hdelegate | appends_step].
Qed.

Lemma appends_propagateState (delegate : cid → Arg → M RetVal) (c : cid) (state : loc) :
  (∀ x a, appends (delegate x a)) → appends (_propagateState delegate c state).
Proof.
  intros Hdelegate. unfold _propagateState.
  repeat first [apply appends_scanDownlinks; exact Hdelegate | appends_step].
Qed.

#[local] Hint Resolve appends_performStateChange : appends.

Lemma appends_delegateState (fuel : nat) (c : cid) (a : Arg) :
  appends (delegateState fuel c a).
Proof.
  revert c a. induction fuel as [| fuel IH]; intros c a; cbn [delegateState].
  - apply appends_stuck.
  - unfold delegateState_body.
    repeat first [apply appends_propagateState; exact IH | appends_step].
Qed.


(** ** Ordering within one delegation *)

Lemma run_commit_advance {A} (k : M A) (c : cid) (state : loc) (self : Controller)
    (s : State.t) (w : World) :
  controller_at (store w) c = Some self →
  heap (store w) !! state = Some s →
  (_setCurrentState c state;; advance state;; k) w
  = k (advanced state s (committed c self s w)).
Proof.
  intros Hc Hs.
  erewrite (run_bind (_setCurrentState c state)); [| by apply run_setCurrentState].
  erewrite (run_bind (advance state));
    [| apply run_advance; by apply committed_descriptor].
  reflexivity.
Qed.

Lemma run_propagateState (delegate : cid → Arg → M RetVal) (c : cid) (state : loc)
    (self : Controller) (s : State.t) (w : World) :
  controller_at (store w) c = Some self →
  heap (store w) !! state = Some s →
  _propagateState delegate c state w
  = scanDownlinks delegate (commit self (fresh (dom (heap (store w)))))
      (State.getName (State.next s)) state (_downlinks self)
      (advanced state s (committed c self s w)).
Proof.
  intros Hc Hs. unfold _propagateState. rewrite (run_commit_advance _ c state self s w Hc Hs).
  erewrite (run_bind (descriptor state)); [| apply run_descriptor; cbn; apply lookup_insert_eq].
  erewrite (run_bind (controller c));
    [| apply run_controller; unfold controller_at; cbn; by rewrite lookup_insert_eq].
  reflexivity.
Qed.

(** C6: in [_performStateChange] and in [_propagateState] alike, the
    handler, respectively the scan of the children that recurses into
    [delegateState], starts in the world where the controller has
    already committed ([_previousState] is the former current state,
    [_currentState] a new copy of the descriptor) and the cursor of the
    descriptor has already advanced.  In the log, [Commit] and then
    [Advance] come first, and whatever the handler call or the children
    log comes after them. *)
Theorem C6_commit_and_advance_come_first (fuel : nat) (c : cid) (state : loc)
    (self : Controller) (s : State.t) (w : World) :
  controller_at (store w) c = Some self →
  heap (store w) !! state = Some s →
  let now := fresh (dom (heap (store w))) in
  let w2 := advanced state s (committed c self s w) in
  (controller_at (store w2) c = Some (commit self now)
   ∧ _previousState (commit self now) = _currentState self
   ∧ _currentState (commit self now) = Some now
   ∧ heap (store w2) !! now = Some s
   ∧ heap (store w2) !! state = Some (State.next s)
   ∧ trace w2 = trace w ++ [Commit c (_currentState self) now; Advance state])
  ∧ _performStateChange c state w = callHandler c state w2
  ∧ _propagateState (delegateState fuel) c state w
    = scanDownlinks (delegateState fuel) (commit self now) (State.getName (State.next s))
        state (_downlinks self) w2
  ∧ (∀ w', final_world (_performStateChange c state w) = Some w' →
       ∃ later, trace w' = trace w ++ Commit c (_currentState self) now :: Advance state :: later)
  ∧ (∀ w', final_world (_propagateState (delegateState fuel) c state w) = Some w' →
       ∃ later, trace w' = trace w ++ Commit c (_currentState self) now :: Advance state :: later).
Proof.
  intros Hc Hs now w2.
  assert (Hne : state ≠ now) by (apply fresh_not_allocated; eauto).
  assert (Htrace : trace w2 = trace w ++ [Commit c (_currentState self) now; Advance state])
    by (cbn; by rewrite <- app_assoc).
  assert (Hperform : _performStateChange c state w = callHandler c state w2)
    by (unfold _performStateChange; by rewrite (run_commit_advance _ c state self s w Hc Hs)).
  pose proof (run_propagateState (delegateState fuel) c state self s w Hc Hs) as Hpropagate.
  split; [| split; [exact Hperform | split; [exact Hpropagate | split]]].
  - split; [unfold controller_at; cbn; by rewrite lookup_insert_eq |].
    split; [done |]. split; [done |]. split; [| split; [| exact Htrace]].
    + cbn. rewrite lookup_insert_ne by done. rewrite lookup_insert_eq. by rewrite clone_eq.
    + cbn. apply lookup_insert_eq.
  - intros w' Hfinal. rewrite Hperform in Hfinal.
    destruct (appends_callHandler c state w2 w' Hfinal) as [later Hlater].
    exists later. rewrite Hlater, Htrace, <- app_assoc. reflexivity.
  - intros w' Hfinal. rewrite Hpropagate in Hfinal.
    destruct (appends_scanDownlinks (delegateState fuel) _ _ state _
                (appends_delegateState fuel) w2 w' Hfinal) as [later Hlater].
    exists later. rewrite Hlater, Htrace, <- app_assoc. reflexivity.
Qed.


(** ** Propagation to the children *)

Lemma scanDownlinks_passes_over (delegate : cid → Arg → M RetVal) (self : Controller)
    (name : string) (state : loc) (before rest : list cid) (w : World) :
  name ≠ "" →
  Forall (passed_over (store w) name) before →
  scanDownlinks delegate self (Some name) state (before ++ rest) w
  = scanDownlinks delegate self (Some name) state rest w.
Proof.
  intros Hne Hbefore.
  assert (Htruthy : JS.truthy (Some name) = true) by (destruct name; done).
  induction Hbefore as [| x before [[node Hnode] [Hx Hplain]] _ IH]; [reflexivity |].
  cbn [app scanDownlinks]. erewrite (run_bind get); [| reflexivity].
  unfold declares in Hx. unfold inherits in Hplain. rewrite Hnode in *.
  destruct node as [curr | up down]; [| exact IH].
  rewrite Htruthy. cbn [negb JS.to_str].
  assert (Hhas : hasState (_states curr) name = false).
  { apply bool_decide_eq_false_1 in Hx. apply hasState_false.
    destruct (_states curr !! name) eqn:Hown; [exfalso; eauto |].
    rewrite bool_decide_eq_true_2 in Hplain by done. done. }
  rewrite Hhas. exact IH.
Qed.

Lemma delegateState_logs_its_call (fuel : nat) (c : cid) (a : Arg) (w w' : World) :
  final_world (delegateState fuel c a w) = Some w' →
  ∃ later, trace w' = trace w ++ Delegated c a :: later.
Proof.
  destruct fuel as [| fuel]; [discriminate |]. cbn [delegateState].
  unfold delegateState_body. erewrite (run_bind (emit _)); [| reflexivity].
  intros Hfinal.
  match type of Hfinal with
  | final_world (?k ?w1) = _ => assert (Hk : appends k)
  end.
  { repeat first [apply appends_propagateState; apply appends_delegateState | appends_step]. }
  destruct (Hk _ _ Hfinal) as [later Hlater].
  exists later. rewrite Hlater. cbn. by rewrite <- app_assoc.
Qed.

(** C7, with the build flag made explicit and for children whose
    tables do not inherit the name: when the descriptor still has a
    local name after the cursor advanced, the children are scanned in
    order; those that are no controller, or that neither declare the
    name nor inherit a value under it, are passed over, and the first
    controller that declares it is the one whose [delegateState] is
    called, in the committed world, whatever children follow it: the
    call is the next entry of the log.  If every child is passed over,
    nothing more happens, except that a debug build logs one [No child
    controller declared] warning; a release build logs nothing. *)
Theorem C7_first_declaring_child_is_delegated (fuel : nat) (c : cid) (state : loc)
    (self : Controller) (s : State.t) (w : World) (name : string) :
  controller_at (store w) c = Some self →
  heap (store w) !! state = Some s →
  State.getName (State.next s) = Some name →
  name ≠ "" →
  let w2 := advanced state s (committed c self s w) in
  (∀ before x after,
     _downlinks self = before ++ x :: after →
     Forall (passed_over (store w2) name) before →
     declares (store w2) name x = true →
     _propagateState (delegateState fuel) c state w
     = (delegateState fuel x (ArgState state);; mret tt) w2
     ∧ ∀ w', final_world (_propagateState (delegateState fuel) c state w) = Some w' →
         ∃ later, trace w' = trace w2 ++ Delegated x (ArgState state) :: later)
  ∧ (Forall (passed_over (store w2) name) (_downlinks self) →
     _propagateState (delegateState fuel) c state w
     = Ret tt {| store := store w2;
                 trace := trace w2 ++
                   (if debug then [Warn (NoChildDeclared (name_ self) name)] else []) |}).
Proof.
  intros Hc Hs Hname Hne w2.
  assert (Htruthy : JS.truthy (Some name) = true) by (destruct name; done).
  rewrite (run_propagateState _ c state self s w Hc Hs), Hname. fold w2. split.
  - intros before x after Hkids Hbefore Hx.
    assert (Hrun : scanDownlinks (delegateState fuel)
                     (commit self (fresh (dom (heap (store w))))) (Some name) state
                     (_downlinks self) w2
                   = (delegateState fuel x (ArgState state);; mret tt) w2).
    { rewrite Hkids, (scanDownlinks_passes_over _ _ name state before _ w2 Hne Hbefore).
      cbn [scanDownlinks]. erewrite (run_bind get); [| reflexivity].
      unfold declares in Hx. destruct (nodes (store w2) !! x) as [[curr | up down] |];
        [| discriminate..].
      rewrite Htruthy. cbn [negb JS.to_str].
      by rewrite (hasState_declared _ _ (bool_decide_eq_true_1 _ Hx)). }
    split; [exact Hrun |]. intros w' Hfinal. rewrite Hrun in Hfinal.
    unfold mbind, M_bind in Hfinal.
    destruct (delegateState fuel x (ArgState state) w2) as [r w3 | e w3 | f] eqn:Hchild;
      [| | discriminate]; injection Hfinal as <-;
      apply (delegateState_logs_its_call fuel x (ArgState state)); by rewrite Hchild.
  - intros Hnone.
    rewrite <- (app_nil_r (_downlinks self)),
      (scanDownlinks_passes_over _ _ name state _ [] w2 Hne Hnone).
    cbn [scanDownlinks]. rewrite Htruthy. cbn [andb JS.to_str].
    destruct debug; [reflexivity |]. unfold mret, M_ret. by rewrite app_nil_r; destruct w2.
Qed.


(** ** [setState] and the authority *)

(** C5: when the resolved state has a local name and its full name is
    registered, [setState] first asks the authority to change the
    global state.  If the authority reports a change, [setState]
    returns [this] at once: the world is the one the authority left and
    nothing is logged, so nothing was delegated.  If it reports none,
    [setState] moves the cursor of the authority's current descriptor
    onto the local name and continues as [delegateState] on that very
    descriptor; no descriptor is allocated on the way. *)
Theorem C5_registered_state_goes_through_the_authority (fuel : nat) (c : cid)
    (name : option string) (params options : option Params) (w : World)
    (stateMeta : Resolved.t) (local : string) :
  resolve_with fuel (store w) c name params = Ok stateMeta →
  Resolved.name stateMeta = Some local →
  stateRegistry.isRegistered (Resolved.fullName stateMeta) = true →
  (∀ σ',
     stateRegistry.setCurrent (Resolved.fullName stateMeta) (Resolved.params stateMeta)
       options (store w) = Done true σ' →
     setState fuel c name params options w = Ret (RThis c) {| store := σ'; trace := trace w |})
  ∧ (∀ σ' state s,
       stateRegistry.setCurrent (Resolved.fullName stateMeta) (Resolved.params stateMeta)
         options (store w) = Done false σ' →
       current σ' = Some state →
       heap σ' !! state = Some s →
       let w1 := {| store := set_heap (<[state := State.seekTo (Some local) s]> (heap σ')) σ';
                    trace := trace w |} in
       setState fuel c name params options w = delegateState fuel c (ArgState state) w1
       ∧ dom (heap (store w1)) = dom (heap σ')
       ∧ current (store w1) = Some state).
Proof.
  intros Hresolve Hlocal Hregistered.
  assert (Hprepare : setState_prepare fuel c name params options w
    = (changed ← lift_effect (stateRegistry.setCurrent (Resolved.fullName stateMeta)
                                (Resolved.params stateMeta) options);
       if (changed : bool) then mret (Returned (RThis c))
       else
         σ ← get;
         match current σ with
         | None => throw TypeError
         | Some state =>
             s ← descriptor state;
             write_descriptor state (State.seekTo (Some local) s);;
             mret (ToDelegate state)
         end) w).
  { unfold setState_prepare. erewrite (run_bind get); [| reflexivity].
    rewrite Hresolve. erewrite (run_bind (lift_result _)); [| reflexivity].
    by rewrite Hlocal, Hregistered. }
  split.
  - intros σ' Hset.
    assert (Hrun : setState_prepare fuel c name params options w
                   = Ret (Returned (RThis c)) {| store := σ'; trace := trace w |}).
    { rewrite Hprepare. unfold mbind, M_bind, lift_effect. by rewrite Hset. }
    unfold setState. by rewrite (run_bind _ _ _ _ _ Hrun).
  - intros σ' state s Hset Hcurrent Hs w1. split; [| split; [| done]].
    + assert (Hrun : setState_prepare fuel c name params options w = Ret (ToDelegate state) w1).
      { rewrite Hprepare.
        erewrite (run_bind (lift_effect _)); [| unfold lift_effect; by rewrite Hset].
        cbv beta iota.
        erewrite (run_bind get); [| reflexivity]. cbn [store]. rewrite Hcurrent.
        erewrite (run_bind (descriptor state)); [| by apply run_descriptor].
        reflexivity. }
      unfold setState. by rewrite (run_bind _ _ _ _ _ Hrun).
    + cbn. rewrite dom_insert_L. apply subseteq_union_1_L, singleton_subseteq_l.
      by apply elem_of_dom_2 in Hs.
Qed.

(** ** Independence of the committed copy *)

(** C9: [_setCurrentState] makes [_currentState] a reference that named
    no descriptor before, so it is not the delegated descriptor, nor
    the authority's current one, nor one held by any node; the new
    object has the content of the delegated descriptor; no other
    descriptor, no other node and not the authority's reference
    change.  The synchronisation that ends [delegateState] changes no
    node and not the authority's reference, and every descriptor is
    after it what it was before, except the controller's own current
    one, which may have got another full name, with its parameters and
    its cursor untouched. *)
Theorem C9_current_state_is_an_independent_copy (c : cid) (state : loc)
    (self : Controller) (s : State.t) (w : World) :
  controller_at (store w) c = Some self →
  heap (store w) !! state = Some s →
  let now := fresh (dom (heap (store w))) in
  (∃ w1,
     _setCurrentState c state w = Ret tt w1
     ∧ controller_at (store w1) c = Some (commit self now)
     ∧ _currentState (commit self now) = Some now
     ∧ heap (store w1) !! now = Some s
     ∧ now ≠ state
     ∧ (∀ l, is_Some (heap (store w) !! l) → l ≠ now)
     ∧ (∀ l, l ≠ now → heap (store w1) !! l = heap (store w) !! l)
     ∧ (∀ x, x ≠ c → nodes (store w1) !! x = nodes (store w) !! x)
     ∧ current (store w1) = current (store w))
  ∧ (∀ name w0 w',
       final_world (syncFullName c state name w0) = Some w' →
       nodes (store w') = nodes (store w0)
       ∧ current (store w') = current (store w0)
       ∧ trace w' = trace w0
       ∧ ∀ l, heap (store w') !! l = heap (store w0) !! l
              ∨ ∃ self0 copy fullName,
                  controller_at (store w0) c = Some self0
                  ∧ _currentState self0 = Some l
                  ∧ heap (store w0) !! l = Some copy
                  ∧ heap (store w') !! l = Some (State.setFullName fullName copy)
                  ∧ State.params (State.setFullName fullName copy) = State.params copy
                  ∧ State.cursor (State.setFullName fullName copy) = State.cursor copy).
Proof.
  intros Hc Hs now. split.
  - exists (committed c self s w). split; [by apply run_setCurrentState |].
    split; [unfold controller_at; cbn; by rewrite lookup_insert_eq |].
    split; [done |].
    split; [cbn; rewrite lookup_insert_eq; by rewrite clone_eq |].
    split; [intros Heq; symmetry in Heq; revert Heq; apply fresh_not_allocated; eauto |].
    split; [intros l; apply fresh_not_allocated |].
    split; [intros l Hl; cbn; by rewrite lookup_insert_ne |].
    split; [intros x Hx; cbn; by rewrite lookup_insert_ne | done].
  - intros name w0 w'. unfold syncFullName, controller, descriptor, get.
    unfold mbind, M_bind, mret, M_ret, stuck, write_descriptor, modify.
    destruct (controller_at (store w0) c) as [self0 |] eqn:Hself0; [| discriminate].
    case_bool_decide as Hcur; [| intros [= <-]; by eauto 6].
    destruct (_currentState self0) as [l0 |] eqn:Hl0; [| intros [= <-]; by eauto 6].
    destruct (heap (store w0) !! l0) as [copy |] eqn:Hcopy; [| discriminate].
    case_bool_decide as Hname; [| intros [= <-]; by eauto 6].
    destruct (heap (store w0) !! state) as [s0 |] eqn:Hs0; [| discriminate].
    intros [= <-]. cbn. repeat (split; [done |]).
    intros l. destruct (decide (l = l0)) as [-> | Hl].
    + right. exists self0, copy, (State.fullName s0).
      rewrite lookup_insert_eq. done.
    + left. by rewrite lookup_insert_ne.
Qed.


(** * Further properties of the class *)

(** ** Keys of the state table *)

Lemma append_cons (a : ascii) (s t : string) : String a s +:+ t = String a (s +:+ t).
Proof. reflexivity. Qed.

Lemma append_nil_l (s : string) : "" +:+ s = s.
Proof. reflexivity. Qed.

Lemma append_nil_r (s : string) : s +:+ "" = s.
Proof. induction s as [| a s IH]; [done | by rewrite append_cons, IH]. Qed.

Lemma append_assoc (s1 s2 s3 : string) : (s1 +:+ s2) +:+ s3 = s1 +:+ (s2 +:+ s3).
Proof. induction s1 as [| a s1 IH]; [done | by rewrite !append_cons, IH]. Qed.

Lemma all_chars_append (p : ascii → bool) (s1 s2 : string) :
  all_chars p (s1 +:+ s2) = all_chars p s1 && all_chars p s2.
Proof.
  induction s1 as [| a s1 IH]; [done |].
  rewrite append_cons. cbn [all_chars]. by rewrite IH, andb_assoc.
Qed.

Lemma match_here_not_open (a : ascii) (s : string) :
  a ≠ "("%char → RegExp.match_here (String a s) = None.
Proof.
  intros Ha. cbn. destruct s as [| b s]; [done |].
  by rewrite (bool_decide_eq_false_2 _ Ha).
Qed.

Lemma stateParams_without_parenthesis (key : string) :
  JS.indexOf "("%char key = None → RegExp.stateParams key = None.
Proof.
  induction key as [| a key IH]; [done |]. cbn [JS.indexOf].
  case_bool_decide as Ha; [done |]. intros Hrest.
  cbn [RegExp.stateParams]. rewrite (match_here_not_open a key Ha).
  apply IH. by destruct (JS.indexOf "("%char key).
Qed.

Lemma lazy_until_close_group (g rest : string) :
  all_chars (λ a, negb (bool_decide (a = ")"%char)) && negb (JS.line_terminator a)) g = true →
  RegExp.lazy_until_close (g +:+ ")" +:+ rest) = Some g.
Proof.
  induction g as [| a g IH]; [done |]. cbn [all_chars]. rewrite append_cons.
  intros [[Hclose Hline]%andb_prop Hg]%andb_prop. cbn [RegExp.lazy_until_close].
  apply negb_true_iff in Hclose, Hline. rewrite Hclose, Hline, (IH Hg). done.
Qed.

Lemma indexOf_before (c : ascii) (n rest : string) :
  JS.indexOf c n = None →
  JS.indexOf c (n +:+ String c rest) = Some (String.length n).
Proof.
  induction n as [| a n IH]; intros Hn.
  - rewrite append_nil_l. cbn. by rewrite bool_decide_eq_true_2.
  - cbn [JS.indexOf] in Hn. case_bool_decide as Ha; [done |].
    rewrite append_cons. cbn [JS.indexOf String.length].
    rewrite (bool_decide_eq_false_2 _ Ha), IH; [done |].
    by destruct (JS.indexOf c n).
Qed.

Lemma substr_to_length (n rest : string) : JS.substr_to (String.length n) (n +:+ rest) = n.
Proof.
  induction n as [| a n IH]; [by destruct rest |].
  rewrite append_cons. cbn [String.length JS.substr_to]. by rewrite IH.
Qed.

Lemma stateParams_group (n g rest : string) :
  JS.indexOf "("%char n = None →
  g ≠ "" →
  all_chars (λ a, negb (bool_decide (a = ")"%char)) && negb (JS.line_terminator a)) g = true →
  RegExp.stateParams (n +:+ "(" +:+ g +:+ ")" +:+ rest) = Some g.
Proof.
  intros Hn Hne Hg. revert Hn. induction n as [| a n IH]; intros Hn.
  - destruct g as [| b g]; [done |]. cbn [all_chars] in Hg.
    apply andb_prop in Hg as [[_ Hline]%andb_prop Hg].
    rewrite append_nil_l, append_cons, append_nil_l, append_cons.
    cbn [RegExp.stateParams RegExp.match_here].
    rewrite Hline, bool_decide_eq_true_2 by done. cbn [andb].
    by rewrite (lazy_until_close_group g rest Hg).
  - cbn [JS.indexOf] in Hn. case_bool_decide as Ha; [done |].
    rewrite append_cons. cbn [RegExp.stateParams]. rewrite (match_here_not_open a _ Ha).
    apply IH. by destruct (JS.indexOf "("%char n).
Qed.

Lemma localName_group (n g rest : string) :
  JS.indexOf "("%char n = None →
  RegExp.stateParams (n +:+ "(" +:+ g +:+ ")" +:+ rest) = Some g →
  localName (n +:+ "(" +:+ g +:+ ")" +:+ rest) = n.
Proof.
  intros Hn Hmatch. unfold localName. rewrite Hmatch.
  change (n +:+ "(" +:+ g +:+ ")" +:+ rest) with (n +:+ String "("%char (g +:+ ")" +:+ rest)).
  rewrite (indexOf_before "("%char n _ Hn). cbn [default]. apply substr_to_length.
Qed.

(** X1: a key of the form [name(group)...], where the name has no opening
    parenthesis and the group is not empty, is written in ASCII and has
    neither a closing parenthesis nor a line break, matches the
    expression with that group, and its local name is the name.  A key
    without any opening parenthesis does not match and is its own local
    name. *)
Theorem X1_key_grammar (n g rest : string) :
  JS.indexOf "("%char n = None →
  g ≠ "" →
  ascii_name (λ a, negb (bool_decide (a = ")"%char)) && negb (JS.line_terminator a)) g →
  RegExp.stateParams (n +:+ "(" +:+ g +:+ ")" +:+ rest) = Some g
  ∧ localName (n +:+ "(" +:+ g +:+ ")" +:+ rest) = n
  ∧ RegExp.stateParams n = None
  ∧ localName n = n.
Proof.
  intros Hn Hne [Hg _].
  pose proof (stateParams_group n g rest Hn Hne Hg) as Hmatch.
  assert (Hplain : RegExp.stateParams n = None) by by apply stateParams_without_parenthesis.
  split; [exact Hmatch |]. split; [by apply localName_group |].
  split; [exact Hplain | unfold localName; by rewrite Hplain].
Qed.

(** ** The list of relevant parameters *)

Lemma whitespace_not_comma (a : ascii) : JS.whitespace a = true → a ≠ ","%char.
Proof. intros Ha ->. discriminate. Qed.

Lemma split_scan_after (piece ws s : string) :
  RegExp.split_scan true piece ws s = RegExp.split_scan true "" "" s.
Proof. by destruct s. Qed.

Lemma split_scan_item (piece s rest : string) :
  all_chars item_char s = true →
  RegExp.split_scan false piece "" (s +:+ rest) = RegExp.split_scan false (piece +:+ s) "" rest.
Proof.
  revert piece. induction s as [| a s IH]; intros piece.
  - intros _. by rewrite append_nil_l, append_nil_r.
  - cbn [all_chars]. intros [[[Hcomma Hws]%andb_prop _]%andb_prop Hs]%andb_prop.
    apply negb_true_iff in Hcomma, Hws. rewrite append_cons.
    cbn [RegExp.split_scan]. rewrite Hcomma, Hws, (IH _ Hs).
    by rewrite append_nil_r, append_assoc, append_cons, append_nil_l.
Qed.

Lemma split_scan_item_after (s rest : string) :
  s ≠ "" → all_chars item_char s = true →
  RegExp.split_scan true "" "" (s +:+ rest) = RegExp.split_scan false s "" rest.
Proof.
  destruct s as [| a s]; [done |]. intros _. cbn [all_chars].
  intros [[[Hcomma Hws]%andb_prop _]%andb_prop Hs]%andb_prop.
  apply negb_true_iff in Hcomma, Hws. rewrite append_cons.
  cbn [RegExp.split_scan]. rewrite Hcomma, Hws, append_nil_l.
  by rewrite (split_scan_item _ s rest Hs), append_cons, append_nil_l.
Qed.

Lemma split_scan_blank (piece ws b rest : string) :
  all_chars blank_char b = true →
  RegExp.split_scan false piece ws (b +:+ rest)
  = RegExp.split_scan false piece (ws +:+ b) rest.
Proof.
  revert ws. induction b as [| a b IH]; intros ws.
  - intros _. by rewrite append_nil_l, append_nil_r.
  - cbn [all_chars]. intros [[Hws _]%andb_prop Hb]%andb_prop.
    rewrite append_cons. cbn [RegExp.split_scan].
    rewrite (bool_decide_eq_false_2 _ (whitespace_not_comma a Hws)), Hws, (IH _ Hb).
    by rewrite append_assoc, append_cons, append_nil_l.
Qed.

Lemma split_scan_blank_after (b rest : string) :
  all_chars blank_char b = true →
  RegExp.split_scan true "" "" (b +:+ rest) = RegExp.split_scan true "" "" rest.
Proof.
  induction b as [| a b IH]; [done |].
  cbn [all_chars]. intros [[Hws _]%andb_prop Hb]%andb_prop.
  rewrite append_cons. cbn [RegExp.split_scan].
  by rewrite (bool_decide_eq_false_2 _ (whitespace_not_comma a Hws)), Hws, (IH Hb).
Qed.

Lemma split_scan_join (sep : string) (items : list string) :
  separator sep → items ≠ [] →
  Forall (λ item, all_chars item_char item = true) items →
  RegExp.split_scan false "" "" (join sep items) = items
  ∧ RegExp.split_scan true "" "" (join sep items) = items.
Proof.
  intros (before & after & -> & Hbefore & Hafter) Hne Hitems.
  induction Hitems as [| item rest Hitem Hrest IH]; [done |]. clear Hne.
  assert (Hlast : ∀ piece, RegExp.split_scan false piece "" "" = [piece])
    by (intros piece; cbn; by rewrite append_nil_r).
  destruct rest as [| next rest].
  - cbn [join]. split.
    + rewrite <- (append_nil_r item) at 1.
      by rewrite (split_scan_item _ item "" Hitem), append_nil_l, Hlast.
    + destruct (decide (item = "")) as [-> | Hnonempty]; [done |].
      rewrite <- (append_nil_r item) at 1.
      by rewrite (split_scan_item_after item "" Hnonempty Hitem), Hlast.
  - destruct (IH ltac:(done)) as [_ IHafter].
    assert (Htail : ∀ piece ws,
      RegExp.split_scan false piece ws ((before +:+ "," +:+ after) +:+ join (before +:+ "," +:+ after) (next :: rest))
      = piece :: next :: rest).
    { intros piece ws. rewrite !append_assoc, (split_scan_blank _ _ before _ Hbefore).
      rewrite append_cons, append_nil_l. cbn [RegExp.split_scan].
      rewrite bool_decide_eq_true_2 by done.
      by rewrite (split_scan_blank_after after _ Hafter), IHafter. }
    change (join (before +:+ "," +:+ after) (item :: next :: rest))
      with (item +:+ (before +:+ "," +:+ after)
            +:+ join (before +:+ "," +:+ after) (next :: rest)).
    split.
    + rewrite (split_scan_item _ item _ Hitem), append_nil_l. apply Htail.
    + destruct (decide (item = "")) as [-> | Hnonempty].
      * rewrite append_nil_l, !append_assoc, (split_scan_blank_after before _ Hbefore).
        rewrite append_cons, append_nil_l. cbn [RegExp.split_scan].
        rewrite bool_decide_eq_true_2 by done.
        by rewrite (split_scan_blank_after after _ Hafter), IHafter.
      * rewrite (split_scan_item_after item _ Hnonempty Hitem). apply Htail.
Qed.


(** X2: splitting the parenthesised group gives back the parameter
    names.  For names written in ASCII without comma, white space or
    closing parenthesis, joined by a separator made of one comma with
    any ASCII white space around it, the split of the joined text is
    the list of names: the white space around the commas is dropped. *)
Theorem X2_split_commas_of_join (sep : string) (items : list string) :
  separator sep → all_chars ascii_char sep = true → items ≠ [] →
  Forall (ascii_name item_char) items →
  RegExp.split_commas (join sep items) = items.
Proof.
  intros Hsep _ Hne Hitems. apply split_scan_join; [done | done |].
  eapply Forall_impl; [exact Hitems |]. by intros item [Hitem _].
Qed.

Lemma all_chars_impl (p q : ascii → bool) (s : string) :
  (∀ a, p a = true → q a = true) → all_chars p s = true → all_chars q s = true.
Proof.
  intros Hpq. induction s as [| a s IH]; [done |]. cbn [all_chars].
  intros [Ha Hs]%andb_prop. by rewrite (Hpq a Ha), (IH Hs).
Qed.

Lemma all_chars_join (q : ascii → bool) (sep : string) (items : list string) :
  all_chars q sep = true → Forall (λ item, all_chars q item = true) items →
  all_chars q (join sep items) = true.
Proof.
  intros Hsep Hitems. induction Hitems as [| item rest Hitem _ IH]; [done |].
  destruct rest as [| next rest]; [done |].
  change (join sep (item :: next :: rest)) with (item +:+ sep +:+ join sep (next :: rest)).
  by rewrite !all_chars_append, Hitem, Hsep, IH.
Qed.

Lemma group_of_join (sep : string) (items : list string) :
  separator sep → Forall (λ item, all_chars item_char item = true) items →
  all_chars (λ a, negb (bool_decide (a = ")"%char)) && negb (JS.line_terminator a))
    (join sep items) = true.
Proof.
  intros (before & after & -> & Hbefore & Hafter) Hitems.
  assert (Hblank : ∀ a, blank_char a = true →
            negb (bool_decide (a = ")"%char)) && negb (JS.line_terminator a) = true).
  { intros a [Hws Hline]%andb_prop. rewrite Hline, andb_true_r.
    apply negb_true_iff, bool_decide_eq_false_2. intros ->. discriminate. }
  assert (Hitem : ∀ a, item_char a = true →
            negb (bool_decide (a = ")"%char)) && negb (JS.line_terminator a) = true).
  { intros a [[_ Hws]%andb_prop Hclose]%andb_prop. rewrite Hclose. cbn [andb].
    apply negb_true_iff in Hws. apply negb_true_iff.
    unfold JS.whitespace in Hws. unfold JS.line_terminator.
    repeat case_bool_decide; subst; cbn in *; congruence. }
  apply all_chars_join.
  - rewrite !all_chars_append, (all_chars_impl _ _ before Hblank Hbefore),
      (all_chars_impl _ _ after Hblank Hafter). done.
  - eapply Forall_impl; [exact Hitems |]. intros item. by apply all_chars_impl.
Qed.

(** ** The parsed table *)

Lemma parseState_Ok (self : Declaration) (states states' : gmap string StateMeta.t)
    (entry : string * HandlerDecl) :
  parseState self states entry = Ok states' →
  states' = <[localName entry.1 := stateMetaOf self entry]> states.
Proof.
  unfold parseState. intros Hparse.
  repeat match type of Hparse with
         | (if ?b then _ else _) = _ => destruct b; [discriminate |]
         end.
  by injection Hparse as <-.
Qed.

Lemma parseStates_loop_lookup (self : Declaration) (entries : list (string * HandlerDecl))
    (states states' : gmap string StateMeta.t) (n : string) :
  parseStates_loop self states entries = Ok states' →
  states' !! n = match declared n entries with
                 | Some entry => Some (stateMetaOf self entry)
                 | None => states !! n
                 end.
Proof.
  revert states. induction entries as [| entry rest IH]; intros states; cbn.
  - by intros [= <-].
  - destruct (parseState self states entry) as [states1 | e | f] eqn:Hstep; [| done..].
    intros Hrest. rewrite (IH _ Hrest). destruct (declared n rest); [done |].
    rewrite (parseState_Ok _ _ _ _ Hstep).
    case_bool_decide as Hn; [subst n; by rewrite lookup_insert_eq | by rewrite lookup_insert_ne].
Qed.

Lemma construct_Ok (self : Declaration) (k : Controller) :
  construct self = Ok k →
  parseStates_loop self ∅ (d_states self) = Ok (_states k)
  ∧ _nrStates k = length (d_states self)
  ∧ _parseDefaultState self (_states k) = Ok (_defaultState k)
  ∧ name_ k = d_name self ∧ _uplink k = None ∧ _downlinks k = []
  ∧ _currentState k = None ∧ _previousState k = None.
Proof.
  unfold construct, _parseStates.
  destruct (parseStates_loop self ∅ (d_states self)) as [states | |]; [| done..].
  destruct (_parseDefaultState self states) as [d | |] eqn:Hd; [| done..].
  by intros [= <-].
Qed.

Lemma declared_Some (n : string) (entries : list (string * HandlerDecl))
    (entry : string * HandlerDecl) :
  declared n entries = Some entry → entry ∈ entries ∧ localName entry.1 = n.
Proof.
  induction entries as [| first rest IH]; [done |]. cbn.
  destruct (declared n rest) as [later |].
  - intros [= ->]. destruct (IH eq_refl). split; [apply elem_of_cons; by right | done].
  - case_bool_decide; [| done]. intros [= ->]. split; [apply elem_of_cons; by left | done].
Qed.

Lemma declared_None (n : string) (entries : list (string * HandlerDecl)) :
  declared n entries = None ↔ Forall (λ entry, localName entry.1 ≠ n) entries.
Proof.
  induction entries as [| first rest IH]; [done |]. cbn. rewrite Forall_cons.
  destruct (declared n rest) as [later |].
  - split; [done |]. intros [_ Hrest]. by apply IH in Hrest.
  - case_bool_decide; split; try done.
    + by intros [? _].
    + intros _. split; [done | by apply IH].
Qed.

Lemma declared_last (n : string) (before : list (string * HandlerDecl))
    (entry : string * HandlerDecl) (after : list (string * HandlerDecl)) :
  localName entry.1 = n →
  Forall (λ later, localName later.1 ≠ n) after →
  declared n (before ++ entry :: after) = Some entry.
Proof.
  intros Hname Hafter%declared_None.
  induction before as [| first before IH]; cbn.
  - by rewrite Hafter, bool_decide_eq_true_2.
  - by rewrite IH.
Qed.

Lemma constructed_lookup (self : Declaration) (k : Controller) (n : string) :
  construct self = Ok k →
  _states k !! n = stateMetaOf self <$> declared n (d_states self).
Proof.
  intros (Hloop & _)%construct_Ok.
  rewrite (parseStates_loop_lookup _ _ _ _ n Hloop).
  by destruct (declared n (d_states self)).
Qed.

(** X3: the entry of a constructed controller under a local name is the
    one made from the last declared key, in enumeration order, that has
    this local name; a name no key has is not in the table. *)
Theorem X3_last_declaration_wins (self : Declaration) (k : Controller) (n : string) :
  construct self = Ok k →
  _states k !! n = stateMetaOf self <$> declared n (d_states self)
  ∧ (∀ before entry after,
       d_states self = before ++ entry :: after →
       localName entry.1 = n →
       Forall (λ later, localName later.1 ≠ n) after →
       _states k !! n = Some (stateMetaOf self entry)).
Proof.
  intros Hk. pose proof (constructed_lookup self k n Hk) as Hlookup.
  split; [exact Hlookup |]. intros before entry after Hkeys Hname Hafter.
  by rewrite Hlookup, Hkeys, (declared_last n before entry after Hname Hafter).
Qed.

Lemma parseStates_loop_size (self : Declaration) (entries : list (string * HandlerDecl))
    (states states' : gmap string StateMeta.t) :
  parseStates_loop self states entries = Ok states' →
  (size states' ≤ size states + length entries)%nat.
Proof.
  revert states. induction entries as [| entry rest IH]; intros states; cbn.
  - intros [= <-]. lia.
  - destruct (parseState self states entry) as [states1 | e | f] eqn:Hstep; [| done..].
    intros Hrest%IH. rewrite (parseState_Ok _ _ _ _ Hstep), map_size_insert in Hrest.
    destruct (states !! localName entry.1); cbn in Hrest; lia.
Qed.

(** X4: the state table of a constructed controller has exactly the
    local names of the declared keys; [_nrStates] is the number of
    declared keys, which the number of entries never exceeds (two keys
    may share a local name). *)
Theorem X4_table_has_the_declared_names (self : Declaration) (k : Controller) :
  construct self = Ok k →
  (∀ n, is_Some (_states k !! n) ↔ ∃ entry, entry ∈ d_states self ∧ localName entry.1 = n)
  ∧ _nrStates k = length (d_states self)
  ∧ (size (_states k) ≤ _nrStates k)%nat.
Proof.
  intros Hk. pose proof (construct_Ok _ _ Hk) as (Hloop & Hnr & _).
  split; [| split; [exact Hnr |]].
  - intros n. rewrite (constructed_lookup self k n Hk).
    destruct (declared n (d_states self)) as [entry |] eqn:Hdeclared.
    + split; [intros _; exists entry; by apply declared_Some | by eauto].
    + split; [by intros [? [=]] |]. intros (entry & Hin & Hname). exfalso.
      apply declared_None in Hdeclared. rewrite Forall_forall in Hdeclared.
      by apply (Hdeclared entry Hin).
  - rewrite Hnr. apply parseStates_loop_size in Hloop. by rewrite map_size_empty in Hloop.
Qed.


(** X5: a state declared as [name(p1, p2, ...)], with its parameter
    names written in ASCII and separated by commas with optional ASCII
    white space, gets a table entry that is no wildcard and whose
    relevant parameters are exactly [p1; p2; ...], provided no later
    key has the same local name. *)
Theorem X5_declared_parameter_list (self : Declaration) (k : Controller)
    (before after : list (string * HandlerDecl)) (n sep : string) (items : list string)
    (func : HandlerDecl) :
  construct self = Ok k →
  d_states self = before ++ (n +:+ "(" +:+ join sep items +:+ ")", func) :: after →
  Forall (λ later, localName later.1 ≠ n) after →
  JS.indexOf "("%char n = None →
  separator sep →
  all_chars ascii_char sep = true →
  Forall (ascii_name item_char) items →
  join sep items ≠ "" →
  join sep items ≠ "*" →
  _states k !! n = Some (StateMeta.mk false items (resolveHandler self func)).
Proof.
  intros Hk Hkeys Hafter Hn Hsep _ Hnames Hnonempty Hstar.
  assert (Hitems : Forall (λ item, all_chars item_char item = true) items)
    by (eapply Forall_impl; [exact Hnames |]; by intros item [Hitem _]).
  assert (Hlist : items ≠ []) by (intros ->; done).
  assert (Hmatch : RegExp.stateParams (n +:+ "(" +:+ join sep items +:+ ")" +:+ "")
                   = Some (join sep items))
    by (apply stateParams_group; [done | done | by apply group_of_join]).
  pose proof (localName_group n _ "" Hn Hmatch) as Hname.
  rewrite append_nil_r in Hmatch, Hname.
  rewrite (constructed_lookup self k n Hk), Hkeys.
  rewrite (declared_last n before (n +:+ "(" +:+ join sep items +:+ ")", func) after
             Hname Hafter). cbn [fmap option_fmap option_map].
  unfold stateMetaOf. cbn [fst snd]. rewrite Hmatch.
  rewrite (bool_decide_eq_false_2 (Some (join sep items) = Some "*")) by congruence.
  rewrite (bool_decide_eq_false_2 _ Hstar).
  unfold RegExp.split_commas.
  by rewrite (proj1 (split_scan_join sep items Hsep Hlist Hitems)).
Qed.

(** ** What the constructor guarantees *)

Lemma parseStates_loop_debug_accepts (self : Declaration)
    (entries : list (string * HandlerDecl)) (states states' : gmap string StateMeta.t) :
  debug = true →
  parseStates_loop self states entries = Ok states' →
  Forall (λ entry, ¬ ill_declared self entry) entries.
Proof.
  intros Hdebug Hloop. apply Forall_forall. intros entry Hin Hill.
  destruct (parseStates_loop_debug_rejects self entries Hdebug
              (proj2 (Exists_exists _ _) (ex_intro _ entry (conj Hin Hill))) states)
    as [e He].
  congruence.
Qed.

(** X6: in a debug build, every entry of a constructed controller has
    a local name that the authority's grammar accepts and that has no
    dot, and a handler that is a function; a default state, if any, has
    a non-empty name under which the read [this._states[name]] finds a
    value: the name is in the table, unless the table inherits a value
    under it. *)
Theorem X6_debug_build_table_is_sound (self : Declaration) (k : Controller) :
  debug = true →
  construct self = Ok k →
  (∀ n stateMeta,
     _states k !! n = Some stateMeta →
     stateRegistry.isValid n = true
     ∧ JS.indexOf "."%char n = None
     ∧ ∃ h, StateMeta.fn stateMeta = FnCallable h)
  ∧ (∀ d, _defaultState k = Some d →
       DefaultState.name d ≠ ""
       ∧ hasState (_states k) (DefaultState.name d) = true
       ∧ (inheritedValue (_states k) (DefaultState.name d) = false →
          is_Some (_states k !! DefaultState.name d))).
Proof.
  intros Hdebug Hk. pose proof (construct_Ok _ _ Hk) as (Hloop & _ & Hdefault & _). split.
  - intros n stateMeta. rewrite (constructed_lookup self k n Hk).
    destruct (declared n (d_states self)) as [entry |] eqn:Hdeclared; [| done].
    intros [= <-]. apply declared_Some in Hdeclared as [Hin <-].
    pose proof (parseStates_loop_debug_accepts _ _ _ _ Hdebug Hloop) as Hsound.
    rewrite Forall_forall in Hsound. specialize (Hsound entry Hin).
    unfold ill_declared in Hsound. split; [| split].
    + destruct (stateRegistry.isValid (localName entry.1)); [done | tauto].
    + destruct (JS.indexOf "."%char (localName entry.1)) eqn:Hdot; [| done].
      exfalso. apply Hsound. right. left. eauto.
    + cbn. destruct (resolveHandler self entry.2) as [h | t]; [eauto | cbn in Hsound; tauto].
  - intros d Hd. unfold _parseDefaultState in Hdefault. rewrite Hd, Hdebug in Hdefault.
    destruct (d_defaultState self) as [decl |]; [| done]. cbn [andb] in Hdefault.
    case_bool_decide as Hempty; [done |].
    destruct (hasState (_states k) (DefaultState.name (defaultOf decl))) eqn:Hhas;
      [| done].
    injection Hdefault as <-. split; [done |]. split; [exact Hhas |].
    intros Hplain. rewrite (hasState_plain _ _ Hplain) in Hhas.
    by apply bool_decide_eq_true_1 in Hhas.
Qed.

(** X7: in a release build the constructor never throws, whatever is
    declared: it makes a controller with the default state as declared
    and an entry for the last key of every local name, callable or
    not. *)
Theorem X7_release_build_constructs_anything (self : Declaration) :
  debug = false →
  ∃ k,
    construct self = Ok k
    ∧ _defaultState k = defaultOf <$> d_defaultState self
    ∧ _nrStates k = length (d_states self)
    ∧ ∀ n, _states k !! n = stateMetaOf self <$> declared n (d_states self).
Proof.
  intros Hdebug. destruct (construct_release_accepts self Hdebug) as [k Hk].
  exists k. split; [exact Hk |].
  pose proof (construct_Ok _ _ Hk) as (_ & Hnr & Hdefault & _).
  split; [| split; [exact Hnr | intros n; by apply constructed_lookup]].
  unfold _parseDefaultState in Hdefault. rewrite Hdebug in Hdefault.
  destruct (d_defaultState self); cbn in *; congruence.
Qed.


(** ** More on the name resolver *)

Lemma resolveFullState_local (fuel : nat) (σ : Store) (c : cid) (self : Controller)
    (name : option string) :
  controller_at σ c = Some self →
  JS.charAt0_is "/"%char (default "" name) = false →
  JS.startsWith (default "" name) "../" = false →
  _resolveFullState fuel σ c name = resolve_local fuel σ self (default "" name).
Proof.
  intros Hself Habsolute Hrelative.
  destruct fuel; simpl; unfold controller_of; by rewrite Habsolute, Hself, Hrelative.
Qed.

Lemma resolveFullState_relative (fuel : nat) (σ : Store) (c : cid) (name : string)
    (state : Resolved.t) :
  JS.startsWith name "../" = true →
  _resolveFullState fuel σ c (Some name) = Ok state →
  Resolved.name state = None.
Proof.
  intros Hrelative.
  assert (Hraise : ∀ e, (if debug then Raise (A := Resolved.t) e else Raise TypeError)
                        ≠ Ok state) by (intros e; by destruct debug).
  destruct fuel as [| fuel]; simpl; rewrite (relative_is_not_absolute _ Hrelative), Hrelative;
    destruct (controller_of σ c) as [self | |]; try done;
    destruct (match _uplink self with
              | Some u => option_map (λ _, u) (controller_at σ u)
              | None => None
              end) as [u |]; try done; try (intros H; by apply Hraise in H).
  destruct (_resolveFullState fuel σ u _); try done.
  intros [= Hstate]. by rewrite <- Hstate.
Qed.

(** X8: resolving a name that starts with [../] in a controller whose
    uplink is missing or is no controller throws in every build: the
    resolver's own error in a debug build, a [TypeError] otherwise;
    [setState] then throws the same error and changes nothing. *)
Theorem X8_relative_name_without_parent (fuel : nat) (c : cid) (self : Controller)
    (name : string) (params options : option Params) (w : World) :
  controller_at (store w) c = Some self →
  JS.startsWith name "../" = true →
  (∀ u, _uplink self = Some u → controller_at (store w) u = None) →
  let e := if debug then UnresolvableRelativeState name (name_ self) else TypeError in
  _resolveFullState fuel (store w) c (Some name) = Raise e
  ∧ setState fuel c (Some name) params options w = Throw e w.
Proof.
  intros Hself Hrelative Hup e.
  assert (Hresolve : _resolveFullState fuel (store w) c (Some name) = Raise e).
  { destruct fuel; simpl; rewrite (relative_is_not_absolute _ Hrelative);
      unfold controller_of; rewrite Hself, Hrelative;
      (destruct (_uplink self) as [u |]; [rewrite (Hup u eq_refl) |]);
      subst e; by destruct debug. }
  split; [exact Hresolve |].
  unfold setState, setState_prepare, resolve_with, mbind, M_bind, get.
  by rewrite Hresolve.
Qed.

(** X9: a name that starts with [/] or with [../], once resolved, has no
    local name, so [setState] never delegates it: it hands the full
    name and the parameters to the authority's [setCurrent] and returns
    [this] whatever the answer is; an error of [setCurrent] is thrown
    on; nothing is logged. *)
Theorem X9_absolute_and_relative_names_go_to_the_authority (fuel : nat) (c : cid)
    (name : string) (params options : option Params) (w : World) (stateMeta : Resolved.t) :
  JS.charAt0_is "/"%char name = true ∨ JS.startsWith name "../" = true →
  resolve_with fuel (store w) c (Some name) params = Ok stateMeta →
  Resolved.name stateMeta = None
  ∧ setState fuel c (Some name) params options w
    = match stateRegistry.setCurrent (Resolved.fullName stateMeta)
              (Resolved.params stateMeta) options (store w) with
      | Done _ σ' => Ret (RThis c) {| store := σ'; trace := trace w |}
      | Raised e σ' => Throw e {| store := σ'; trace := trace w |}
      end.
Proof.
  intros Hkind Hresolve.
  assert (Hname : Resolved.name stateMeta = None).
  { unfold resolve_with in Hresolve.
    destruct (_resolveFullState fuel (store w) c (Some name)) as [state | |] eqn:Hstate;
      [| done..].
    injection Hresolve as <-. cbn. destruct Hkind as [Habsolute | Hrelative].
    - destruct name as [| a name]; [done |]. cbn in Habsolute.
      destruct fuel; simpl in Hstate; cbn in Hstate;
        rewrite Habsolute in Hstate; by injection Hstate as <-.
    - by apply (resolveFullState_relative fuel (store w) c name). }
  split; [exact Hname |].
  assert (Hprepare : setState_prepare fuel c (Some name) params options w
    = match stateRegistry.setCurrent (Resolved.fullName stateMeta)
              (Resolved.params stateMeta) options (store w) with
      | Done _ σ' => Ret (Returned (RThis c)) {| store := σ'; trace := trace w |}
      | Raised e σ' => Throw e {| store := σ'; trace := trace w |}
      end).
  { unfold setState_prepare.
    erewrite (run_bind get); [| reflexivity]. rewrite Hresolve.
    erewrite (run_bind (lift_result _)); [| reflexivity]. rewrite Hname.
    unfold mbind, M_bind, lift_effect, mret, M_ret.
    by destruct (stateRegistry.setCurrent _ _ _ _). }
  unfold setState, mbind, M_bind. rewrite Hprepare.
  by destruct (stateRegistry.setCurrent _ _ _ _).
Qed.

Lemma walk_ancestors_suffix (fuel : nat) (σ : Store) (ancestor : option cid)
    (start fullName : string) (params params' : Params) :
  start ≠ "" →
  walk_ancestors fuel σ ancestor start params = Ok (fullName, params') →
  fullName = start ∨ ∃ prefix, fullName = prefix +:+ "." +:+ start.
Proof.
  intros Hstart.
  assert (Hgen : ∀ fuel ancestor current params,
    (current = start ∨ ∃ prefix, current = prefix +:+ "." +:+ start) →
    walk_ancestors fuel σ ancestor current params = Ok (fullName, params') →
    fullName = start ∨ ∃ prefix, fullName = prefix +:+ "." +:+ start).
  { clear fuel ancestor params. intros fuel.
    induction fuel as [| fuel IH]; intros ancestor current params Hcurrent;
      destruct ancestor as [a |]; cbn;
      try (intros [= <- <-]; exact Hcurrent);
      destruct (nodes σ !! a) as [[k | up down] |]; try done;
      try (intros [= <- <-]; exact Hcurrent);
      destruct (_currentState k) as [l |]; try (intros [= <- <-]; exact Hcurrent);
      destruct (heap σ !! l) as [ancestorState |]; try done.
    apply IH. right.
    assert (Hnonempty : current ≠ "").
    { destruct Hcurrent as [-> | [prefix ->]]; [done |].
      destruct prefix; [by rewrite append_nil_l | by rewrite append_cons]. }
    rewrite (bool_decide_eq_false_2 _ Hnonempty).
    destruct Hcurrent as [-> | [prefix ->]]; [eauto |].
    exists (JS.to_str (State.getName ancestorState) +:+ "." +:+ prefix).
    by rewrite !append_assoc. }
  apply Hgen. by left.
Qed.

(** The walk returns once it has fuel for every ancestor that is in a
    state, and the local branch with it. *)
Lemma walk_ancestors_returns (σ : Store) (ancestor : option cid) (n : nat) :
  walk_ends σ ancestor n →
  ∀ fuel start params, (n ≤ fuel)%nat →
    ∃ fullName params', walk_ancestors fuel σ ancestor start params = Ok (fullName, params').
Proof.
  induction 1 as [n | a up down n Hnode | a k n Hnode Hidle
                  | a k l ancestorState n Hnode Hl Hs _ IH];
    intros fuel start params Hfuel.
  - destruct fuel; cbn; eauto.
  - destruct fuel; cbn; rewrite Hnode; eauto.
  - destruct fuel; cbn; rewrite Hnode, Hidle; eauto.
  - destruct fuel as [| fuel]; [lia |]. cbn. rewrite Hnode, Hl, Hs. apply IH. lia.
Qed.

Lemma resolve_local_returns (fuel n : nat) (σ : Store) (self : Controller) (name : string) :
  in_store σ self →
  walk_ends σ (_uplink self) n →
  (n ≤ fuel)%nat →
  ∃ state, resolve_local fuel σ self name = Ok state.
Proof.
  intros Hstore Hends Hfuel. unfold resolve_local.
  assert (Hstart : ∃ start,
            match _currentState self with
            | Some l => match heap σ !! l with
                        | Some s => Ok (Mout.mixIn ∅ (Some (State.params s)))
                        | None => Halt Dangling
                        end
            | None => Ok ∅
            end = Ok start).
  { unfold in_store in Hstore. destruct (_currentState self) as [l |]; [| eauto].
    destruct (Hstore l eq_refl) as [s ->]. eauto. }
  destruct Hstart as [start ->].
  destruct (walk_ancestors_returns σ _ n Hends fuel name start Hfuel)
    as (fullName & params' & ->).
  destruct (_defaultState self); [case_bool_decide |]; eauto.
Qed.

Lemma resolved_full_name_suffix (fuel : nat) (σ : Store) (c : cid)
    (self : Controller) (name : string) (state : Resolved.t) :
  controller_at σ c = Some self →
  name ≠ "" →
  JS.charAt0_is "/"%char name = false →
  JS.startsWith name "../" = false →
  _resolveFullState fuel σ c (Some name) = Ok state →
  Resolved.name state = Some name
  ∧ (Resolved.fullName state = name
     ∨ ∃ prefix, Resolved.fullName state = prefix +:+ "." +:+ name).
Proof.
  intros Hself Hname Habsolute Hrelative.
  rewrite (resolveFullState_local fuel σ c self (Some name) Hself Habsolute Hrelative).
  change (default "" (Some name)) with name. unfold resolve_local.
  destruct (match _currentState self with
            | Some l => match heap σ !! l with
                        | Some s => Ok (Mout.mixIn ∅ (Some (State.params s)))
                        | None => Halt Dangling
                        end
            | None => Ok ∅
            end) as [params | |]; [| done..].
  destruct (walk_ancestors fuel σ (_uplink self) name params) as [[fullName params'] | |]
    eqn:Hwalk; [| done..].
  apply walk_ancestors_suffix in Hwalk; [| done].
  rewrite (bool_decide_eq_false_2 _ Hname).
  destruct (_defaultState self); intros [= <-]; by split.
Qed.

(** X10: a non-empty local name (one that starts neither with [/] nor
    with [../]) is resolved as soon as the fuel covers the ancestors
    that are in a state; the resolved state has that local name, and
    its full name is the local name itself or ends with a dot followed
    by the local name: the ancestors' names are only ever put in
    front. *)
Theorem X10_full_name_ends_with_local_name (fuel n : nat) (σ : Store) (c : cid)
    (self : Controller) (name : string) :
  controller_at σ c = Some self →
  name ≠ "" →
  JS.charAt0_is "/"%char name = false →
  JS.startsWith name "../" = false →
  in_store σ self →
  walk_ends σ (_uplink self) n →
  (n ≤ fuel)%nat →
  ∃ state,
    _resolveFullState fuel σ c (Some name) = Ok state
    ∧ Resolved.name state = Some name
    ∧ (Resolved.fullName state = name
       ∨ ∃ prefix, Resolved.fullName state = prefix +:+ "." +:+ name).
Proof.
  intros Hself Hname Habsolute Hrelative Hstore Hends Hfuel.
  destruct (resolve_local_returns fuel n σ self name Hstore Hends Hfuel) as [state Hstate].
  pose proof (resolveFullState_local fuel σ c self (Some name) Hself Habsolute Hrelative)
    as Hlocal.
  change (default "" (Some name)) with name in Hlocal. rewrite <- Hlocal in Hstate.
  exists state. split; [exact Hstate |].
  exact (resolved_full_name_suffix fuel σ c self name state Hself Hname Habsolute
           Hrelative Hstate).
Qed.

Lemma controller_at_node (σ : Store) (c : cid) (k : Controller) :
  controller_at σ c = Some k → nodes σ !! c = Some (NController k).
Proof.
  unfold controller_at. destruct (nodes σ !! c) as [[k' | up down] |]; [| done..].
  by intros [= ->].
Qed.

Lemma resolved_default_name (fuel : nat) (σ : Store) (c : cid)
    (self : Controller) (d : DefaultState.t) (state : Resolved.t) :
  controller_at σ c = Some self →
  _defaultState self = Some d →
  _resolveFullState fuel σ c None = Ok state →
  Resolved.name state = Some (DefaultState.name d)
  ∧ (∀ u parent l s a,
       _uplink self = Some u → controller_at σ u = Some parent →
       _currentState parent = Some l → heap σ !! l = Some s →
       State.getName s = Some a → a ≠ "" →
       Resolved.fullName state = a
       ∨ ∃ prefix, Resolved.fullName state = prefix +:+ "." +:+ a)
  ∧ (_uplink self = None → Resolved.fullName state = DefaultState.name d).
Proof.
  intros Hself Hd.
  rewrite (resolveFullState_local fuel σ c self None Hself eq_refl eq_refl).
  change (default "" None) with "". unfold resolve_local.
  destruct (match _currentState self with
            | Some l => match heap σ !! l with
                        | Some s => Ok (Mout.mixIn ∅ (Some (State.params s)))
                        | None => Halt Dangling
                        end
            | None => Ok ∅
            end) as [params | |]; [| done..].
  destruct (walk_ancestors fuel σ (_uplink self) "" params) as [[fullName params'] | |]
    eqn:Hwalk; [| done..].
  rewrite Hd. rewrite (bool_decide_eq_true_2 ("" = "")) by done.
  intros [= <-]. cbn. split; [done |]. split.
  - intros u parent l s a Hup Hparent Hl Hs Ha Hnonempty.
    rewrite Hup in Hwalk. destruct fuel as [| fuel]; cbn in Hwalk;
      rewrite (controller_at_node _ _ _ Hparent), Hl, Hs in Hwalk; [done |].
    rewrite Ha in Hwalk. cbn [JS.to_str] in Hwalk. rewrite append_nil_r in Hwalk.
    apply walk_ancestors_suffix in Hwalk; [| done].
    assert (Hfull : fullName ≠ "").
    { destruct Hwalk as [-> | [prefix ->]]; [done |].
      destruct prefix; [by rewrite append_nil_l | by rewrite append_cons]. }
    by rewrite (bool_decide_eq_false_2 _ Hfull).
  - intros Hup. rewrite Hup in Hwalk. destruct fuel; injection Hwalk as <- <-; done.
Qed.

(** X11: the empty name is resolved, in a controller that has a default
    state, as soon as the fuel covers the ancestors that are in a
    state; the resolved state has the default's name as local name, but
    its full name is only the path of the ancestors when the parent
    shows a state: it ends with the parent's current local name, the
    default's name is not appended.  Without an uplink the full name is
    the default's name. *)
Theorem X11_default_name_is_not_appended (fuel n : nat) (σ : Store) (c : cid)
    (self : Controller) (d : DefaultState.t) :
  controller_at σ c = Some self →
  _defaultState self = Some d →
  in_store σ self →
  walk_ends σ (_uplink self) n →
  (n ≤ fuel)%nat →
  ∃ state,
    _resolveFullState fuel σ c None = Ok state
    ∧ Resolved.name state = Some (DefaultState.name d)
    ∧ (∀ u parent l s a,
         _uplink self = Some u → controller_at σ u = Some parent →
         _currentState parent = Some l → heap σ !! l = Some s →
         State.getName s = Some a → a ≠ "" →
         Resolved.fullName state = a
         ∨ ∃ prefix, Resolved.fullName state = prefix +:+ "." +:+ a)
    ∧ (_uplink self = None → Resolved.fullName state = DefaultState.name d).
Proof.
  intros Hself Hd Hstore Hends Hfuel.
  destruct (resolve_local_returns fuel n σ self "" Hstore Hends Hfuel) as [state Hstate].
  pose proof (resolveFullState_local fuel σ c self None Hself eq_refl eq_refl) as Hlocal.
  change (default "" None) with "" in Hlocal. rewrite <- Hlocal in Hstate.
  exists state. split; [exact Hstate |].
  exact (resolved_default_name fuel σ c self d state Hself Hd Hstate).
Qed.






(** ** More on the delegation engine *)

(** X13: delegating a descriptor whose local name is still empty after
    the default was filled in does nothing: the call returns
    [undefined], no node changes, the authority's reference is the
    same, and the only thing logged besides the call is, in a debug
    build and only if the controller declares at least one state, one
    [No default state] warning.  A controller without states is silent
    in every build. *)
Theorem X13_empty_name_is_ignored (fuel : nat) (c : cid) (a : Arg) (w : World)
    (self : Controller) (state : loc) (s : State.t) :
  argState (store w) a = Some state →
  controller_at (store w) c = Some self →
  heap (store w) !! state = Some s →
  JS.truthy (State.getName (fillState self s)) = false →
  ∃ w',
    delegateState (S fuel) c a w = Ret RUndefined w'
    ∧ nodes (store w') = nodes (store w)
    ∧ current (store w') = current (store w)
    ∧ heap (store w') = <[state := fillState self s]> (heap (store w))
    ∧ trace w' = trace w ++ Delegated c a ::
                   (if debug && negb (bool_decide (_nrStates self = O))
                    then [Warn (NoDefaultState (name_ self))] else []).
Proof.
  intros Ha Hc Hs Hname. cbn [delegateState].
  rewrite (run_delegateState_entry _ c a state self s w Ha Hc Hs). cbn zeta.
  rewrite Hname. cbn [negb].
  destruct (debug && negb (bool_decide (_nrStates self = 0)));
    eexists; (split; [reflexivity |]); cbn [store trace entered set_heap heap nodes current];
    rewrite <- ?app_assoc, ?app_nil_r; by repeat split.
Qed.

(** X14: [delegateState] without a descriptor throws.  Called without
    argument while the authority holds no current descriptor, or called
    with a parameter bag that has no [$info] envelope, it throws a
    [TypeError]; nothing but the call is logged and the store is
    untouched. *)
Theorem X14_no_descriptor_is_a_TypeError (fuel : nat) (c : cid) (a : Arg) (w : World) :
  argState (store w) a = None →
  delegateState (S fuel) c a w
  = Throw TypeError {| store := store w; trace := trace w ++ [Delegated c a] |}
  ∧ (a = ArgNone → current (store w) = None)
  ∧ (∀ p, a = ArgBag p → ∀ newState previousState,
       p !! "$info" ≠ Some (VInfo newState previousState)).
Proof.
  intros Ha. split; [| split].
  - cbn [delegateState]. unfold delegateState_body.
    erewrite (run_bind (emit _)); [| reflexivity].
    unfold normalize, mbind, M_bind, get. cbn [store]. by rewrite Ha.
  - intros ->. exact Ha.
  - intros p -> newState previousState Hinfo. cbn in Ha. by rewrite Hinfo in Ha.
Qed.

Lemma run_callHandler (c : cid) (state : loc) (self : Controller) (now : loc)
    (copy s : State.t) (w : World) :
  controller_at (store w) c = Some self →
  _currentState self = Some now →
  heap (store w) !! now = Some copy →
  heap (store w) !! state = Some s →
  callHandler c state w
  = match StateMeta.fn <$> _states self !! JS.to_str (State.getName copy) with
    | Some (FnCallable h) =>
        match call h c (State.params s) (store w) with
        | Done _ σ' =>
            Ret tt {| store := σ';
                      trace := trace w ++ [Handler c (JS.to_str (State.getName copy))] |}
        | Raised e σ' =>
            Throw e {| store := σ';
                       trace := trace w ++ [Handler c (JS.to_str (State.getName copy))] |}
        end
    | _ => Throw TypeError w
    end.
Proof.
  intros Hc Hnow Hcopy Hs. unfold callHandler.
  erewrite (run_bind (controller c)); [| by apply run_controller]. rewrite Hnow.
  erewrite (run_bind (descriptor now)); [| by apply run_descriptor].
  destruct (_states self !! JS.to_str (State.getName copy)) as [stateMeta |]; [| done].
  cbn [fmap option_fmap option_map]. destruct (StateMeta.fn stateMeta) as [h |]; [| done].
  erewrite (run_bind (descriptor state)); [| by apply run_descriptor].
  erewrite (run_bind (emit _)); [| reflexivity].
  unfold lift_effect. cbn [store trace].
  by destruct (call h c (State.params s) (store w)) as [[] σ' | e σ'].
Qed.

Lemma run_performStateChange (c : cid) (state : loc) (self : Controller) (s : State.t)
    (w : World) :
  controller_at (store w) c = Some self →
  heap (store w) !! state = Some s →
  _performStateChange c state w
  = callHandler c state (advanced state s (committed c self s w))
  ∧ controller_at (store (advanced state s (committed c self s w))) c
    = Some (commit self (fresh (dom (heap (store w)))))
  ∧ heap (store (advanced state s (committed c self s w))) !! fresh (dom (heap (store w)))
    = Some s
  ∧ heap (store (advanced state s (committed c self s w))) !! state = Some (State.next s).
Proof.
  intros Hc Hs.
  assert (Hne : state ≠ fresh (dom (heap (store w))))
    by (apply fresh_not_allocated; eauto).
  split; [unfold _performStateChange; by rewrite (run_commit_advance _ c state self s w Hc Hs) |].
  split; [unfold controller_at; cbn; by rewrite lookup_insert_eq |]. split.
  - cbn. rewrite lookup_insert_ne by done. by rewrite lookup_insert_eq, clone_eq.
  - cbn. apply lookup_insert_eq.
Qed.

(** X15: what [_performStateChange] does.  The controller commits and
    the cursor advances first.  Then, if the table has no entry for the
    name of the committed copy or the entry's handler is no function
    (possible in a release build only), a [TypeError] is thrown; if the
    handler is a function it is called once with the parameters of the
    descriptor, and an error it raises is thrown on.  In every case the
    commit stays: the failure does not restore the former state. *)
Theorem X15_own_handling (c : cid) (state : loc) (self : Controller) (s : State.t)
    (w : World) :
  controller_at (store w) c = Some self →
  heap (store w) !! state = Some s →
  let w2 := advanced state s (committed c self s w) in
  let name := JS.to_str (State.getName s) in
  _performStateChange c state w
  = match StateMeta.fn <$> _states self !! name with
    | Some (FnCallable h) =>
        match call h c (State.params s) (store w2) with
        | Done _ σ' => Ret tt {| store := σ'; trace := trace w2 ++ [Handler c name] |}
        | Raised e σ' => Throw e {| store := σ'; trace := trace w2 ++ [Handler c name] |}
        end
    | _ => Throw TypeError w2
    end
  ∧ controller_at (store w2) c = Some (commit self (fresh (dom (heap (store w))))).
Proof.
  intros Hc Hs w2 name.
  destruct (run_performStateChange c state self s w Hc Hs) as (Hrun & Hself & Hcopy & Hnext).
  split; [| exact Hself]. rewrite Hrun. fold w2.
  by rewrite (run_callHandler c state _ _ s (State.next s) w2 Hself eq_refl Hcopy Hnext).
Qed.

(** X16: a controller that shows no state yet, or is delegated a state
    whose entry is a wildcard, always handles the state itself: the
    descriptor is filled, the controller commits, the cursor advances
    and the handler is called with the parameters of the filled
    descriptor.  If the handler returns, the full name is synchronised
    and [this] is answered; if it raises, the error is thrown on. *)
Theorem X16_first_and_wildcard_states_are_handled (fuel : nat) (c : cid) (a : Arg)
    (w : World) (self : Controller) (state : loc) (s : State.t) (name : string)
    (stateMeta : StateMeta.t) (h : nat) :
  argState (store w) a = Some state →
  controller_at (store w) c = Some self →
  heap (store w) !! state = Some s →
  State.getName (fillState self s) = Some name →
  name ≠ "" →
  _states self !! name = Some stateMeta →
  StateMeta.fn stateMeta = FnCallable h →
  _currentState self = None ∨ StateMeta.wildcard stateMeta = true →
  let w1 := entered c a state self s w in
  let w2 := advanced state (fillState self s) (committed c self (fillState self s) w1) in
  let log := trace w ++ [Delegated c a; Commit c (_currentState self) (fresh (dom (heap (store w1))));
                         Advance state; Handler c name] in
  delegateState (S fuel) c a w
  = match call h c (State.params (fillState self s)) (store w2) with
    | Done _ σ' =>
        (syncFullName c state name;; mret (RThis c)) {| store := σ'; trace := log |}
    | Raised e σ' => Throw e {| store := σ'; trace := log |}
    end.
Proof.
  intros Ha Hc Hs Hname Hne Hmeta Hfn Hdiffers w1 w2 log. cbn [delegateState].
  rewrite (run_delegateState_entry _ c a state self s w Ha Hc Hs). cbn zeta. fold w1.
  rewrite Hname. cbn [JS.to_str].
  replace (JS.truthy (Some name)) with true by (destruct name; done).
  cbn [negb]. rewrite (hasState_declared (_states self) name) by eauto. cbn [negb].
  erewrite (run_bind get); [| reflexivity].
  assert (Hsame : _isSameState (store w1) self (fillState self s) None = Ok false).
  { unfold _isSameState. destruct Hdiffers as [-> | Hwild]; [done |].
    destruct (_currentState self); [| done].
    rewrite Hname. cbn [JS.to_str]. by rewrite Hmeta; cbn; rewrite Hwild. }
  rewrite Hsame. erewrite (run_bind (lift_result _)); [| reflexivity]. cbn [negb].
  assert (Hc1 : controller_at (store w1) c = Some self) by exact Hc.
  assert (Hs1 : heap (store w1) !! state = Some (fillState self s))
    by (cbn; apply lookup_insert_eq).
  destruct (run_performStateChange c state self (fillState self s) w1 Hc1 Hs1)
    as (Hperform & Hself & Hcopy & Hnext).
  unfold mbind at 1, M_bind at 1. rewrite Hperform. fold w2.
  rewrite (run_callHandler c state _ _ (fillState self s) (State.next (fillState self s)) w2
             Hself eq_refl Hcopy Hnext).
  cbn [commit _states State.next State.params].
  rewrite Hname. cbn [JS.to_str]. rewrite Hmeta. cbn [fmap option_fmap option_map].
  rewrite Hfn.
  assert (Hlog : trace w2 ++ [Handler c name] = log).
  { subst log w2 w1. cbn. by rewrite <- !app_assoc. }
  rewrite Hlog. by destruct (call h c (State.params (fillState self s)) (store w2)).
Qed.


Lemma scanDownlinks_passes_by_default (delegate : cid → Arg → M RetVal) (self : Controller)
    (name : option string) (state : loc) (s : State.t) (before rest : list cid) (w : World) :
  JS.truthy name = false →
  heap (store w) !! state = Some s →
  Forall (λ x, is_Some (nodes (store w) !! x)
               ∧ takes_default (store w) (State.fullName s) x = false) before →
  scanDownlinks delegate self name state (before ++ rest) w
  = scanDownlinks delegate self name state rest w.
Proof.
  intros Hname Hs Hbefore.
  induction Hbefore as [| x before [[node Hnode] Hx] _ IH]; [reflexivity |].
  cbn [app scanDownlinks]. erewrite (run_bind get); [| reflexivity].
  unfold takes_default in Hx. rewrite Hnode in *. destruct node as [curr | up down]; [| exact IH].
  rewrite Hname. cbn [negb]. destruct (_defaultState curr) as [d |]; [| exact IH].
  erewrite (run_bind (descriptor state)); [| by apply run_descriptor].
  rewrite Hx. exact IH.
Qed.

(** X17: when no local name is left after the cursor advanced, the
    children are scanned in order for the first controller that has a
    default state whose path (the descriptor's full name, a dot, the
    default's name) is registered with the authority; [delegateState]
    is called on that child and on no other.  If there is none, the
    propagation ends in the committed world without any warning, in
    debug builds too. *)
Theorem X17_propagation_without_a_name (fuel : nat) (c : cid) (state : loc)
    (self : Controller) (s : State.t) (w : World) :
  controller_at (store w) c = Some self →
  heap (store w) !! state = Some s →
  JS.truthy (State.getName (State.next s)) = false →
  let w2 := advanced state s (committed c self s w) in
  let passed x :=
    is_Some (nodes (store w2) !! x) ∧ takes_default (store w2) (State.fullName s) x = false in
  (∀ before x after,
     _downlinks self = before ++ x :: after →
     Forall passed before →
     takes_default (store w2) (State.fullName s) x = true →
     _propagateState (delegateState fuel) c state w
     = (delegateState fuel x (ArgState state);; mret tt) w2)
  ∧ (Forall passed (_downlinks self) →
     _propagateState (delegateState fuel) c state w = Ret tt w2).
Proof.
  intros Hc Hs Hname w2 passed.
  assert (Hnext : heap (store w2) !! state = Some (State.next s))
    by (cbn; apply lookup_insert_eq).
  rewrite (run_propagateState _ c state self s w Hc Hs). fold w2. split.
  - intros before x after Hkids Hbefore Hx.
    rewrite Hkids, (scanDownlinks_passes_by_default _ _ _ state (State.next s) before _ w2
                      Hname Hnext Hbefore).
    cbn [scanDownlinks]. erewrite (run_bind get); [| reflexivity].
    unfold takes_default in Hx. destruct (nodes (store w2) !! x) as [[curr | up down] |];
      [| discriminate..].
    rewrite Hname. cbn [negb]. destruct (_defaultState curr) as [d |]; [| discriminate].
    erewrite (run_bind (descriptor state)); [| by apply run_descriptor].
    cbn [State.next State.fullName]. by rewrite Hx.
  - intros Hnone.
    rewrite <- (app_nil_r (_downlinks self)),
      (scanDownlinks_passes_by_default _ _ _ state (State.next s) _ [] w2 Hname Hnext Hnone).
    cbn [scanDownlinks]. by rewrite Hname.
Qed.

(** ** The envelope of a new descriptor *)

(** X18: when the resolved full name is not registered, [setState]
    does not consult the authority: it makes a new descriptor whose
    path is the local name, whose parameters are the resolved ones plus
    an [$info] envelope that names the descriptor itself and the
    controller's previous state, and delegates it.  No other
    descriptor, no node and not the authority's reference change on
    the way, and a parameter bag with that envelope, given to
    [delegateState], stands for this very descriptor. *)
Theorem X18_unregistered_state_gets_an_envelope (fuel : nat) (c : cid)
    (name : option string) (params options : option Params) (w : World)
    (self : Controller) (stateMeta : Resolved.t) (local : string) :
  resolve_with fuel (store w) c name params = Ok stateMeta →
  Resolved.name stateMeta = Some local →
  stateRegistry.isRegistered (Resolved.fullName stateMeta) = false →
  controller_at (store w) c = Some self →
  let state := fresh (dom (heap (store w))) in
  let bag := <["$info" := VInfo state (_previousState self)]> (Resolved.params stateMeta) in
  let w1 := {| store := set_heap (<[state := State.mk local 0 bag]> (heap (store w))) (store w);
               trace := trace w |} in
  setState fuel c name params options w = delegateState fuel c (ArgState state) w1
  ∧ heap (store w) !! state = None
  ∧ argState (store w1) (ArgBag bag) = Some state.
Proof.
  intros Hresolve Hlocal Hregistered Hself state bag w1.
  assert (Hprepare : setState_prepare fuel c name params options w = Ret (ToDelegate state) w1).
  { unfold setState_prepare. erewrite (run_bind get); [| reflexivity]. rewrite Hresolve.
    erewrite (run_bind (lift_result _)); [| reflexivity]. rewrite Hlocal, Hregistered.
    erewrite (run_bind (controller c)); [| by apply run_controller].
    erewrite (run_bind (alloc _)); [| apply run_alloc].
    erewrite (run_bind (descriptor _)); [| apply run_descriptor; cbn; apply lookup_insert_eq].
    unfold write_descriptor, modify, mbind, M_bind, mret, M_ret. cbn.
    unfold w1, set_heap. cbn. by rewrite insert_insert_eq. }
  split; [unfold setState; by rewrite (run_bind _ _ _ _ _ Hprepare) |].
  split; [apply not_elem_of_dom, is_fresh |].
  cbn. subst bag. by rewrite lookup_insert_eq.
Qed.


(** ** What a delegation leaves alone *)

Lemma same_frame_refl (σ : Store) : same_frame σ σ.
Proof. by split. Qed.

Lemma same_frame_trans (σ1 σ2 σ3 : Store) :
  same_frame σ1 σ2 → same_frame σ2 σ3 → same_frame σ1 σ3.
Proof.
  intros [Hc1 Hn1] [Hc2 Hn2]. split; [congruence |]. intros x. by rewrite Hn2, Hn1.
Qed.

Lemma same_frame_heap (σ : Store) (h : gmap loc State.t) : same_frame σ (set_heap h σ).
Proof. by split. Qed.

Lemma frames_ret {A} (a : A) : frames (mret a).
Proof. intros w w' [= <-]. apply same_frame_refl. Qed.

Lemma frames_throw {A} (e : Error) : frames (throw e : M A).
Proof. intros w w' [= <-]. apply same_frame_refl. Qed.

Lemma frames_stuck {A} (f : Failure) : frames (stuck f : M A).
Proof. intros w w' [=]. Qed.

Lemma frames_get : frames get.
Proof. intros w w' [= <-]. apply same_frame_refl. Qed.

Lemma frames_emit (ev : Event) : frames (emit ev).
Proof. intros w w' [= <-]. apply same_frame_refl. Qed.

Lemma frames_lift_result {A} (r : Result A) : frames (lift_result r).
Proof. destruct r; [apply frames_ret | apply frames_throw | apply frames_stuck]. Qed.

Lemma frames_write_descriptor (l : loc) (s : State.t) : frames (write_descriptor l s).
Proof. intros w w' [= <-]. apply same_frame_heap. Qed.

Lemma frames_bind {A B} (m : M A) (f : A → M B) :
  frames m → (∀ a, frames (f a)) → frames (m ≫= f).
Proof.
  intros Hm Hf w w'. unfold mbind, M_bind.
  destruct (m w) as [a w1 | e w1 | x] eqn:Hrun.
  - intros Hk. eapply same_frame_trans; [apply (Hm w w1); by rewrite Hrun | by apply (Hf a)].
  - intros [= <-]. apply (Hm w w1). by rewrite Hrun.
  - discriminate.
Qed.

Lemma frames_call (h : nat) (c : cid) (p : Params) :
  handlers_keep_frame → frames (lift_effect (call h c p)).
Proof.
  intros Hcall w w'. unfold lift_effect. specialize (Hcall h c p (store w)).
  by destruct (call h c p (store w)); intros [= <-].
Qed.

Create HintDb frames discriminated.

#[local] Hint Resolve frames_ret frames_throw frames_stuck frames_get frames_emit
  frames_lift_result frames_write_descriptor frames_call : frames.

Ltac frames_step :=
  match goal with
  | |- frames (_ ≫= _) => apply frames_bind; [| intros ?]
  | |- frames (if ?b then _ else _) => destruct b
  | |- frames (match ?x with _ => _ end) => destruct x
  | |- frames (let _ := _ in _) => cbv zeta
  | |- frames _ => solve [auto with frames]
  end.

Lemma frames_descriptor (l : loc) : frames (descriptor l).
Proof. unfold descriptor. repeat frames_step. Qed.

Lemma frames_controller (c : cid) : frames (controller c).
Proof. unfold controller. repeat frames_step. Qed.

#[local] Hint Resolve frames_descriptor frames_controller : frames.

Lemma frames_advance (state : loc) : frames (advance state).
Proof. unfold advance. repeat frames_step. Qed.

Lemma frames_fillStateIfEmpty (c : cid) (state : loc) : frames (_fillStateIfEmpty c state).
Proof. unfold _fillStateIfEmpty. repeat frames_step. Qed.

Lemma frames_normalize (a : Arg) : frames (normalize a).
Proof. unfold normalize. repeat frames_step. Qed.

Lemma frames_syncFullName (c : cid) (state : loc) (name : string) :
  frames (syncFullName c state name).
Proof. unfold syncFullName. repeat frames_step. Qed.

Lemma frames_setCurrentState (c : cid) (state : loc) : frames (_setCurrentState c state).
Proof.
  intros w w'.
  destruct (controller_at (store w) c) as [self |] eqn:Hc.
  - destruct (heap (store w) !! state) as [s |] eqn:Hs.
    + rewrite (run_setCurrentState c state self s w Hc Hs). intros [= <-].
      split; [done |]. intros x. cbn. destruct (decide (x = c)) as [-> | Hx].
      * by rewrite lookup_insert_eq, (controller_at_node _ _ _ Hc).
      * by rewrite lookup_insert_ne.
    + unfold _setCurrentState. erewrite (run_bind (controller c)); [| by apply run_controller].
      unfold descriptor, mbind, M_bind, get. by rewrite Hs.
  - unfold _setCurrentState, controller, mbind, M_bind, get. by rewrite Hc.
Qed.

#[local] Hint Resolve frames_advance frames_fillStateIfEmpty frames_normalize
  frames_syncFullName frames_setCurrentState : frames.

Lemma frames_callHandler (c : cid) (state : loc) :
  handlers_keep_frame → frames (callHandler c state).
Proof. intros Hcall. unfold callHandler. repeat frames_step. Qed.

Lemma frames_scanDownlinks (delegate : cid → Arg → M RetVal) (self : Controller)
    (name : option string) (state : loc) (downlinks : list cid) :
  (∀ x a, frames (delegate x a)) →
  frames (scanDownlinks delegate self name state downlinks).
Proof.
  intros Hdelegate. induction downlinks as [| x rest IH]; cbn [scanDownlinks].
  - repeat frames_step.
  - repeat first [exact IH | apply Hdelegate | frames_step].
Qed.

Lemma frames_delegateState (fuel : nat) (c : cid) (a : Arg) :
  handlers_keep_frame → frames (delegateState fuel c a).
Proof.
  intros Hcall. revert c a. induction fuel as [| fuel IH]; intros c a; cbn [delegateState].
  - apply frames_stuck.
  - unfold delegateState_body, _performStateChange, _propagateState.
    repeat first [apply frames_scanDownlinks; exact IH
                 | apply frames_callHandler; exact Hcall
                 | frames_step].
Qed.

(** X19: a delegation changes of the tree only [_currentState] and
    [_previousState].  If the handlers leave alone the names, links,
    state tables, default states and state counts of all nodes and the
    authority's current reference, then so does [delegateState],
    however deep it recurses and whether it returns or throws; in
    particular it adds and removes no node. *)
Theorem X19_delegation_keeps_the_frame (fuel : nat) (c : cid) (a : Arg) (w w' : World) :
  handlers_keep_frame →
  final_world (delegateState fuel c a w) = Some w' →
  current (store w') = current (store w)
  ∧ (∀ x, frame_of <$> nodes (store w') !! x = frame_of <$> nodes (store w) !! x)
  ∧ (∀ x k, controller_at (store w) x = Some k →
       ∃ k', controller_at (store w') x = Some k'
             ∧ _states k' = _states k ∧ _defaultState k' = _defaultState k
             ∧ _uplink k' = _uplink k ∧ _downlinks k' = _downlinks k
             ∧ name_ k' = name_ k ∧ _nrStates k' = _nrStates k).
Proof.
  intros Hcall Hfinal.
  destruct (frames_delegateState fuel c a Hcall w w' Hfinal) as [Hcurrent Hnodes].
  split; [exact Hcurrent |]. split; [exact Hnodes |].
  intros x k Hk. specialize (Hnodes x). rewrite (controller_at_node _ _ _ Hk) in Hnodes.
  unfold controller_at. destruct (nodes (store w') !! x) as [[k' | up down] |]; [| done..].
  exists k'. split; [done |]. cbn in Hnodes. injection Hnodes as -> -> -> -> -> ->. done.
Qed.


End Properties.

(** ** Concrete runs *)

(** C1, at a failing input: the items controller shows [edit] with
    [page = 3]; asked for the empty name it resolves to its default
    [list], and the default's [page = 1] replaces the inherited
    [page = 3] instead of leaving it, because the default's parameters
    are merged with [mixIn] where [_fillStateIfEmpty] uses [fillIn]. *)
Theorem C1_default_params_overwrite_inherited :
  ∃ state,
    _resolveFullState (runtime := Demo.debug_build) 0 Demo.editing 0 None = Ok state
    ∧ Resolved.name state = Some "list"
    ∧ Resolved.fullName state = "list"
    ∧ (Demo.editing.(heap) !! 0%nat ≫= λ s, State.params s !! "page") = Some (VNum 3)
    ∧ Resolved.params state !! "page" = Some (VNum 1)
    ∧ Resolved.params state !! "id" = Some (VNum 7)
    ∧ Mout.fillIn (<["page" := VNum 3]> {["id" := VNum 7]}) {["page" := VNum 1]} !! "page"
      = Some (VNum 3).
Proof.
  eexists. split; [vm_compute; reflexivity |].
  repeat split; vm_compute; reflexivity.
Qed.

(** C2 as the code has it: each construction error is met once in a
    debug build, and the relative name once in each build. *)
Lemma C2_structural_errors_witness :
  (∃ e, construct (authority := Demo.registry) (runtime := Demo.debug_build)
          Demo.bad_grammar = Raise e)
  ∧ (∃ e, construct (authority := Demo.registry) (runtime := Demo.debug_build)
            Demo.bad_dotted = Raise e)
  ∧ (∃ e, construct (authority := Demo.registry) (runtime := Demo.debug_build)
            Demo.bad_handler = Raise e)
  ∧ (construct (authority := Demo.registry) (runtime := Demo.debug_build) Demo.bad_default
     = Raise (EmptyDefaultState "Bad")
     ∨ construct (authority := Demo.registry) (runtime := Demo.debug_build) Demo.bad_default
       = Raise (NonexistentDefaultState "Bad"))
  ∧ _resolveFullState (runtime := Demo.debug_build) 1 Demo.editing 0 (Some "../list")
    = Raise (UnresolvableRelativeState "../list" "ItemsController")
  ∧ _resolveFullState (runtime := Demo.release_build) 1 Demo.editing 0 (Some "../list")
    = Raise TypeError.
Proof.
  destruct (C2_structural_errors (authority := Demo.registry)
              (runtime := Demo.debug_build)) as [Hdebug Hrelative].
  destruct (Hdebug eq_refl) as [Hstates Hdefault].
  destruct (C2_structural_errors (authority := Demo.registry)
              (runtime := Demo.release_build)) as [_ Hrelease].
  split; [| split; [| split; [| split; [| split]]]].
  - apply (Hstates Demo.bad_grammar). apply Exists_cons_hd. left. reflexivity.
  - apply (Hstates Demo.bad_dotted). apply Exists_cons_hd. right. left. vm_compute. eauto.
  - apply (Hstates Demo.bad_handler). apply Exists_cons_hd. right. right. reflexivity.
  - apply (Hdefault Demo.bad_default {["home" := StateMeta.mk false [] (FnCallable 0)]} 1 (DString "nothere"));
      [reflexivity | reflexivity | right; reflexivity].
  - apply (Hrelative 1 Demo.editing 0 (Demo.items_controller (Some 0)));
      [reflexivity | reflexivity | discriminate].
  - apply (Hrelease 1 Demo.editing 0 (Demo.items_controller (Some 0)));
      [reflexivity | reflexivity | discriminate].
Defined.

(** C2 fails in a release build: a declaration whose only state has a
    name the grammar refuses, with a dot in it, bound to something that
    is not a function, and whose default state is the empty name, is
    constructed without an error. *)
Lemma C2_release_build_accepts :
  Exists (λ entry,
      stateRegistry.isValid (t := Demo.registry)
        (localName entry.1) = false
      ∧ is_Some (JS.indexOf "."%char (localName entry.1))
      ∧ callable (resolveHandler Demo.bad_everything entry.2) = false)
    (d_states Demo.bad_everything)
  ∧ (defaultOf <$> d_defaultState Demo.bad_everything) = Some (DefaultState.mk "" ∅)
  ∧ construct (authority := Demo.registry) (runtime := Demo.release_build) Demo.bad_everything
    = Ok {| name_ := "Bad"; _uplink := None; _downlinks := [];
            _states := {["my.bad state" := StateMeta.mk false [] (FnNotCallable true)]};
            _nrStates := 1; _defaultState := Some (DefaultState.mk "" ∅);
            _currentState := None; _previousState := None |}.
Proof.
  split; [| split; reflexivity].
  apply Exists_cons_hd. repeat split. vm_compute. eauto.
Qed.

(** C3 on the items controller: the wildcard [edit] against the very
    descriptor the controller shows, [list] against a [list] with
    another page, and a controller that shows nothing. *)
Lemma C3_isSameState_witness :
  _isSameState Demo.editing (Demo.items_controller (Some 0))
    (State.mk "edit" 0 (<["page" := VNum 3]> {["id" := VNum 7]})) (Some 0) = Ok false
  ∧ _isSameState Demo.listing (Demo.items_controller (Some 0))
      (State.mk "list" 0 {["page" := VNum 2]}) None = Ok true
  ∧ _isSameState Demo.listing (Demo.items_controller None)
      (State.mk "list" 0 {["page" := VNum 1]}) None = Ok false
  ∧ (∃ fn, <["edit" := StateMeta.mk true [] (FnCallable 1)]> (∅ : gmap string StateMeta.t)
           !! localName "edit(*)" = Some (StateMeta.mk true [] fn))
  ∧ (∃ fn, <["list" := StateMeta.mk false [] (FnCallable 0)]> (∅ : gmap string StateMeta.t)
           !! "list" = Some (StateMeta.mk false [] fn)).
Proof.
  destruct (C3_isSameState_wildcard_and_name_only (authority := Demo.registry)
              (runtime := Demo.debug_build) Demo.editing (Demo.items_controller (Some 0))
              (State.mk "edit" 0 (<["page" := VNum 3]> {["id" := VNum 7]})))
    as (Hwild & _ & _ & Hstar & Hplain).
  destruct (C3_isSameState_wildcard_and_name_only (authority := Demo.registry)
              (runtime := Demo.debug_build) Demo.listing (Demo.items_controller (Some 0))
              (State.mk "list" 0 {["page" := VNum 2]}))
    as (_ & Hname & _).
  destruct (C3_isSameState_wildcard_and_name_only (authority := Demo.registry)
              (runtime := Demo.debug_build) Demo.listing (Demo.items_controller None)
              (State.mk "list" 0 {["page" := VNum 1]}))
    as (_ & _ & Hnone & _).
  split; [| split; [| split; [| split]]].
  - apply Hwild with (stateMeta := StateMeta.mk true [] (FnCallable 1)); reflexivity.
  - apply Hname with (stateMeta := StateMeta.mk false [] (FnCallable 0)) (b := 0)
                     (base := State.mk "list" 0 {["page" := VNum 1]}); reflexivity.
  - apply Hnone. reflexivity.
  - apply Hstar with (decl := Demo.items) (states := ∅) (func := HFunction 1); reflexivity.
  - apply Hplain with (decl := Demo.items) (states := ∅) (func := HName "_list"); reflexivity.
Defined.

(** C4, at a failing input: the items controller declares [list],
    [edit] and [show]; handed a descriptor named [toString], which it
    does not declare, it does not ignore it.  The test of
    [this._states[name]] finds the function every object inherits from
    [Object.prototype], so the controller commits ([_currentState]
    becomes a copy of the descriptor), advances the cursor, and fails
    on the call of a handler that does not exist. *)
Theorem C4_inherited_name_is_not_ignored :
  _states (Demo.items_controller None) !! "toString" = None
  ∧ hasState (_states (Demo.items_controller None)) "toString" = true
  ∧ ∃ w',
      delegateState (authority := Demo.registry) (runtime := Demo.debug_build)
        1 0 (ArgState 0) Demo.asked_toString = Throw TypeError w'
      ∧ controller_at (store w') 0 = Some (commit (Demo.items_controller None) 1)
      ∧ controller_at (store w') 0 ≠ controller_at (store Demo.asked_toString) 0
      ∧ trace w' = [Delegated 0 (ArgState 0); Commit 0 None 1; Advance 0].
Proof.
  split; [reflexivity |]. split; [reflexivity |].
  eexists. split; [vm_compute; reflexivity |].
  split; [reflexivity |]. split; [discriminate | reflexivity].
Qed.

(** X20 on the items controller, delegated [nothere] in a debug build. *)
Lemma X20_unknown_state_witness :
  ∃ w',
    delegateState (authority := Demo.registry) (runtime := Demo.debug_build)
      1 0 (ArgState 0) Demo.asked = Ret RUndefined w'
    ∧ nodes (store w') = nodes (store Demo.asked)
    ∧ controller_at (store w') 0 = Some (Demo.items_controller None)
    ∧ current (store w') = current (store Demo.asked)
    ∧ trace w' = [Delegated 0 (ArgState 0); Warn (UnknownState "nothere" "ItemsController")].
Proof.
  apply (X20_unknown_state_is_ignored (authority := Demo.registry)
           (runtime := Demo.debug_build) 0 0 (ArgState 0) Demo.asked
           (Demo.items_controller None) 0
           (State.mk "nothere" 0 {["$info" := VInfo 0 None]}) "nothere");
    [reflexivity | reflexivity | reflexivity | reflexivity | discriminate | reflexivity
    | reflexivity].
Defined.


(** C5 in the shop: the authority holds nothing, so it changes and
    [setState] returns; the authority already holds [app.list], so its
    descriptor is delegated. *)
Lemma C5_registered_state_witness :
  setState (authority := Demo.registry) (runtime := Demo.debug_build)
    1 1 (Some "list") None None Demo.shop_elsewhere
  = Ret (RThis 1)
      {| store := {| heap := {[ 0 := State.mk "app.list" 0 ∅; 1 := State.mk "app.list" 0 ∅ ]};
                     nodes := Demo.shop_nodes; current := Some 1 |};
         trace := [] |}
  ∧ setState (authority := Demo.registry) (runtime := Demo.debug_build)
      1 1 (Some "list") None None Demo.shop
    = delegateState (authority := Demo.registry) (runtime := Demo.debug_build)
        1 1 (ArgState 1)
        {| store := set_heap (<[1 := State.seekTo (Some "list") (State.mk "app.list" 0 ∅)]>
                                (heap (store Demo.shop))) (store Demo.shop);
           trace := [] |}.
Proof.
  split.
  - apply (C5_registered_state_goes_through_the_authority (authority := Demo.registry)
             (runtime := Demo.debug_build) 1 1 (Some "list") None None Demo.shop_elsewhere
             (Resolved.mk (Some "list") "app.list" ∅) "list");
      [vm_compute; reflexivity | reflexivity | reflexivity | vm_compute; reflexivity].
  - apply (C5_registered_state_goes_through_the_authority (authority := Demo.registry)
             (runtime := Demo.debug_build) 1 1 (Some "list") None None Demo.shop
             (Resolved.mk (Some "list") "app.list" ∅) "list");
      [vm_compute; reflexivity | reflexivity | reflexivity
      | vm_compute; reflexivity | reflexivity | reflexivity].
Defined.

(** C6 on the tree: the application controller is handed [app.item]. *)
Lemma C6_commit_and_advance_witness :
  _performStateChange (runtime := Demo.debug_build) 0 0 Demo.tree
  = callHandler (runtime := Demo.debug_build) 0 0
      (advanced 0 (State.mk "app.item" 0 ∅)
         (committed 0 Demo.app (State.mk "app.item" 0 ∅) Demo.tree))
  ∧ (∀ w', final_world
             (_propagateState (authority := Demo.registry) (runtime := Demo.debug_build)
                (delegateState (authority := Demo.registry) (runtime := Demo.debug_build) 1) 0 0 Demo.tree) = Some w' →
       ∃ later, trace w' = [] ++ Commit 0 None 2 :: Advance 0 :: later).
Proof.
  destruct (C6_commit_and_advance_come_first (authority := Demo.registry)
              (runtime := Demo.debug_build) 1 0 0 Demo.app (State.mk "app.item" 0 ∅)
              Demo.tree eq_refl eq_refl) as (_ & Hperform & _ & _ & Hlog).
  split; [exact Hperform | exact Hlog].
Defined.

(** C7 on the tree in a debug build: the view is passed over, the
    first controller gets [item], the second one is not looked at; and
    nobody declares or inherits [other]. *)
Lemma C7_first_declaring_child_witness :
  _propagateState (authority := Demo.registry) (runtime := Demo.debug_build)
    (delegateState (authority := Demo.registry) (runtime := Demo.debug_build) 1) 0 0 Demo.tree
  = (delegateState (authority := Demo.registry) (runtime := Demo.debug_build)
       1 2 (ArgState 0);; mret tt)
      (advanced 0 (State.mk "app.item" 0 ∅)
         (committed 0 Demo.app (State.mk "app.item" 0 ∅) Demo.tree))
  ∧ ∃ w', _propagateState (authority := Demo.registry) (runtime := Demo.debug_build)
            (delegateState (authority := Demo.registry) (runtime := Demo.debug_build) 1) 0 1 Demo.tree = Ret tt w'
          ∧ trace w' = [Commit 0 None 2; Advance 1;
                        Warn (NoChildDeclared "AppController" "other")].
Proof.
  split.
  - apply (C7_first_declaring_child_is_delegated (authority := Demo.registry)
             (runtime := Demo.debug_build) 1 0 0 Demo.app (State.mk "app.item" 0 ∅)
             Demo.tree "item" eq_refl eq_refl eq_refl) with (before := [1]) (after := [3]);
      [discriminate | reflexivity | | reflexivity].
    constructor; [split; [vm_compute; eauto | split; reflexivity] | constructor].
  - eexists. split.
    + apply (C7_first_declaring_child_is_delegated (authority := Demo.registry)
               (runtime := Demo.debug_build) 1 0 1 Demo.app (State.mk "app.other" 0 ∅)
               Demo.tree "other" eq_refl eq_refl eq_refl); [discriminate |].
      repeat (constructor; [split; [vm_compute; eauto | split; reflexivity] |]).
      constructor.
    + reflexivity.
Defined.

(** C7 fails in a release build: no child of the application
    controller declares [other], and the propagation ends without any
    warning. *)
Lemma C7_release_build_is_silent :
  Forall (λ x, declares (store Demo.tree) "other" x = false) (_downlinks Demo.app)
  ∧ ∃ w', _propagateState (authority := Demo.registry) (runtime := Demo.release_build)
            (delegateState (authority := Demo.registry) (runtime := Demo.release_build) 1) 0 1 Demo.tree = Ret tt w'
          ∧ trace w' = [Commit 0 None 2; Advance 1]
          ∧ ∀ x, Warn x ∉ trace w'.
Proof.
  split; [repeat constructor |].
  eexists. split; [vm_compute; reflexivity |]. split; [reflexivity |].
  intros x Hin. cbn in Hin. repeat (apply elem_of_cons in Hin as [Hin | Hin]; [discriminate |]).
  by apply elem_of_nil in Hin.
Qed.

(** C9 on the tree: the copy made for the application controller is the
    new reference [2]; the descriptors [0] and [1] are left alone. *)
Lemma C9_independent_copy_witness :
  ∃ w1,
    _setCurrentState 0 0 Demo.tree = Ret tt w1
    ∧ controller_at (store w1) 0 = Some (commit Demo.app 2)
    ∧ heap (store w1) !! 2%nat = Some (State.mk "app.item" 0 ∅)
    ∧ heap (store w1) !! 0%nat = heap (store Demo.tree) !! 0%nat
    ∧ current (store w1) = Some 0.
Proof.
  destruct (C9_current_state_is_an_independent_copy 0 0 Demo.app (State.mk "app.item" 0 ∅)
              Demo.tree eq_refl eq_refl)
    as [(w1 & Hrun & Hself & _ & Hcopy & _ & _ & Hheap & _ & Hcurrent) _].
  exists w1. split; [exact Hrun |]. split; [exact Hself |]. split; [exact Hcopy |].
  split; [apply Hheap; discriminate | exact Hcurrent].
Defined.

(** ** The parsers on examples *)

Example stateParams_with_list : RegExp.stateParams "edit(id, page)" = Some "id, page".
Proof. reflexivity. Qed.

Example stateParams_without : RegExp.stateParams "list" = None.
Proof. reflexivity. Qed.

Example stateParams_empty_group : RegExp.stateParams "list()" = None.
Proof. reflexivity. Qed.

Example split_commas_trims : RegExp.split_commas "id ,  page,x y" = ["id"; "page"; "x y"].
Proof. reflexivity. Qed.

Example split_on_dots : JS.split_on "."%char "app.list.item" = ["app"; "list"; "item"].
Proof. reflexivity. Qed.

Example construct_items :
  construct (authority := Demo.registry) (runtime := Demo.debug_build) Demo.items
  = Ok (Demo.items_controller None).
Proof. vm_compute. reflexivity. Qed.


(** The whole engine on the tree, in a debug build.  The first
    delegation of the authority's descriptor [app.item] changes the
    state of the application controller and calls its handler; the
    second finds the same state and propagates to the first child that
    declares [item]. *)
Example delegate_then_propagate :
  ∃ w1 w2,
    delegateState (authority := Demo.registry) (runtime := Demo.debug_build)
      3 0 ArgNone Demo.tree = Ret (RThis 0) w1
    ∧ trace w1 = [Delegated 0 ArgNone; Commit 0 None 2; Advance 0; Handler 0 "app"]
    ∧ delegateState (authority := Demo.registry) (runtime := Demo.debug_build) 3 0 (ArgState 2)
        {| store := store w1; trace := [] |} = Ret (RThis 0) w2
    ∧ trace w2 = [Delegated 0 (ArgState 2); Commit 0 (Some 2) 3; Advance 2;
                  Delegated 2 (ArgState 2); Commit 2 None 4; Advance 2; Handler 2 "item"].
Proof.
  eexists _, _. split; [vm_compute; reflexivity |]. split; [reflexivity |].
  split; [vm_compute; reflexivity | reflexivity].
Qed.


(** ** Concrete runs of the further properties *)

(** X1 on the key [show(id, page)]. *)
Lemma X1_key_grammar_witness :
  RegExp.stateParams "show(id, page)" = Some "id, page"
  ∧ localName "show(id, page)" = "show"
  ∧ RegExp.stateParams "show" = None
  ∧ localName "show" = "show".
Proof.
  apply (X1_key_grammar "show" "id, page" "");
    [reflexivity | discriminate | split; reflexivity].
Defined.

(** X2 on two names with blanks around the comma. *)
Lemma X2_split_commas_witness : RegExp.split_commas "id , page" = ["id"; "page"].
Proof.
  apply (X2_split_commas_of_join " , " ["id"; "page"]).
  - exists " ", " ". repeat split; reflexivity.
  - reflexivity.
  - discriminate.
  - repeat constructor.
Defined.

(** X3 on a declaration that has [edit] twice: the second key wins. *)
Lemma X3_last_declaration_witness :
  _states Demo.twice_controller !! "edit"
  = Some (stateMetaOf Demo.twice ("edit(id)", HFunction 2)).
Proof.
  apply (X3_last_declaration_wins (authority := Demo.registry) (runtime := Demo.debug_build)
           Demo.twice Demo.twice_controller "edit")
    with (before := [("edit(*)", HFunction 1)]) (after := []);
    [vm_compute; reflexivity | reflexivity | reflexivity | constructor].
Defined.

(** X4 on the same declaration: one entry, two declared keys. *)
Lemma X4_table_names_witness :
  (∀ n, is_Some (_states Demo.twice_controller !! n)
        ↔ ∃ entry, entry ∈ d_states Demo.twice ∧ localName entry.1 = n)
  ∧ _nrStates Demo.twice_controller = 2
  ∧ (size (_states Demo.twice_controller) ≤ 2)%nat.
Proof.
  apply (X4_table_has_the_declared_names (authority := Demo.registry)
           (runtime := Demo.debug_build) Demo.twice Demo.twice_controller).
  vm_compute. reflexivity.
Defined.

(** X5 on the key [show(id)] of the items controller. *)
Lemma X5_parameter_list_witness :
  _states (Demo.items_controller None) !! "show"
  = Some (StateMeta.mk false ["id"] (FnCallable 2)).
Proof.
  apply (X5_declared_parameter_list (authority := Demo.registry) (runtime := Demo.debug_build)
           Demo.items (Demo.items_controller None)
           [("list", HName "_list"); ("edit(*)", HFunction 1)] [] "show" ", " ["id"]
           (HFunction 2)).
  - vm_compute. reflexivity.
  - reflexivity.
  - constructor.
  - reflexivity.
  - exists "", " ". repeat split; reflexivity.
  - reflexivity.
  - repeat constructor.
  - discriminate.
  - discriminate.
Defined.

(** X6 on the items controller, built in a debug build. *)
Lemma X6_debug_table_witness :
  (∀ n stateMeta,
     _states (Demo.items_controller None) !! n = Some stateMeta →
     stateRegistry.isValid (t := Demo.registry) n = true
     ∧ JS.indexOf "."%char n = None
     ∧ ∃ h, StateMeta.fn stateMeta = FnCallable h)
  ∧ (∀ d, _defaultState (Demo.items_controller None) = Some d →
       DefaultState.name d ≠ ""
       ∧ hasState (_states (Demo.items_controller None)) (DefaultState.name d) = true
       ∧ (inheritedValue (_states (Demo.items_controller None)) (DefaultState.name d) = false →
          is_Some (_states (Demo.items_controller None) !! DefaultState.name d))).
Proof.
  apply (X6_debug_build_table_is_sound (authority := Demo.registry)
           (runtime := Demo.debug_build) Demo.items (Demo.items_controller None));
    [reflexivity | vm_compute; reflexivity].
Defined.

(** X7 on the declaration with every defect, in a release build. *)
Lemma X7_release_build_witness :
  ∃ k,
    construct (authority := Demo.registry) (runtime := Demo.release_build) Demo.bad_everything
    = Ok k
    ∧ _defaultState k = defaultOf <$> d_defaultState Demo.bad_everything
    ∧ _nrStates k = length (d_states Demo.bad_everything)
    ∧ ∀ n, _states k !! n
           = stateMetaOf Demo.bad_everything <$> declared n (d_states Demo.bad_everything).
Proof.
  apply (X7_release_build_constructs_anything (authority := Demo.registry)
           (runtime := Demo.release_build) Demo.bad_everything). reflexivity.
Defined.

(** X8 on the items controller at the root, in a release build. *)
Lemma X8_relative_name_witness :
  _resolveFullState (runtime := Demo.release_build) 1 Demo.editing 0 (Some "../list")
  = Raise TypeError
  ∧ setState (authority := Demo.registry) (runtime := Demo.release_build)
      1 0 (Some "../list") None None {| store := Demo.editing; trace := [] |}
    = Throw TypeError {| store := Demo.editing; trace := [] |}.
Proof.
  apply (X8_relative_name_without_parent (authority := Demo.registry)
           (runtime := Demo.release_build) 1 0 (Demo.items_controller (Some 0)) "../list"
           None None {| store := Demo.editing; trace := [] |});
    [reflexivity | reflexivity | discriminate].
Defined.

(** X9 in the shop: the absolute name [/app.list]. *)
Lemma X9_absolute_name_witness :
  Resolved.name (Resolved.mk None "app.list" ∅) = None
  ∧ setState (authority := Demo.registry) (runtime := Demo.debug_build)
      1 1 (Some "/app.list") None None Demo.shop
    = match stateRegistry.setCurrent (t := Demo.registry) "app.list" ∅ None
              (store Demo.shop) with
      | Done _ σ' => Ret (RThis 1) {| store := σ'; trace := [] |}
      | Raised e σ' => Throw e {| store := σ'; trace := [] |}
      end.
Proof.
  apply (X9_absolute_and_relative_names_go_to_the_authority (authority := Demo.registry)
           (runtime := Demo.debug_build) 1 1 "/app.list" None None Demo.shop
           (Resolved.mk None "app.list" ∅));
    [left; reflexivity | reflexivity].
Defined.

(** X10 in the shop: [list] below the application showing [app]; one
    unit of fuel covers the one ancestor. *)
Lemma X10_full_name_witness :
  ∃ state,
    _resolveFullState (runtime := Demo.debug_build) 1 (store Demo.shop) 1 (Some "list")
    = Ok state
    ∧ Resolved.name state = Some "list"
    ∧ (Resolved.fullName state = "list"
       ∨ ∃ prefix, Resolved.fullName state = prefix +:+ "." +:+ "list").
Proof.
  apply (X10_full_name_ends_with_local_name (runtime := Demo.debug_build) 1 1
           (store Demo.shop) 1
           {| name_ := "ItemsController"; _uplink := Some 0; _downlinks := [];
              _states := Demo.items_states; _nrStates := 3;
              _defaultState := Some (DefaultState.mk "list" {["page" := VNum 1]});
              _currentState := None; _previousState := None |} "list");
    [reflexivity | discriminate | reflexivity | reflexivity | intros l Hl; discriminate Hl
    | | lia].
  apply (walk_ends_step (store Demo.shop) 0
           {| name_ := "AppController"; _uplink := None; _downlinks := [1];
              _states := {["app" := StateMeta.mk false [] (FnCallable 0)]};
              _nrStates := 1; _defaultState := None;
              _currentState := Some 0; _previousState := None |}
           0 (State.mk "app.list" 0 ∅) 0);
    [reflexivity | reflexivity | reflexivity | apply walk_ends_root].
Defined.


(** X11 in the shop: the empty name resolves to the local name [list]
    and the full name [app], the parent's state. *)
Lemma X11_default_name_witness :
  ∃ state,
    _resolveFullState (runtime := Demo.debug_build) 1 (store Demo.shop) 1 None = Ok state
    ∧ Resolved.name state = Some "list"
    ∧ (Resolved.fullName state = "app"
       ∨ ∃ prefix, Resolved.fullName state = prefix +:+ "." +:+ "app").
Proof.
  destruct (X11_default_name_is_not_appended (runtime := Demo.debug_build) 1 1
              (store Demo.shop) 1
              {| name_ := "ItemsController"; _uplink := Some 0; _downlinks := [];
                 _states := Demo.items_states; _nrStates := 3;
                 _defaultState := Some (DefaultState.mk "list" {["page" := VNum 1]});
                 _currentState := None; _previousState := None |}
              (DefaultState.mk "list" {["page" := VNum 1]})
              eq_refl eq_refl)
    as (state & Hstate & Hname & Hparent & _).
  - intros l Hl. discriminate Hl.
  - apply (walk_ends_step (store Demo.shop) 0
             {| name_ := "AppController"; _uplink := None; _downlinks := [1];
                _states := {["app" := StateMeta.mk false [] (FnCallable 0)]};
                _nrStates := 1; _defaultState := None;
                _currentState := Some 0; _previousState := None |}
             0 (State.mk "app.list" 0 ∅) 0);
      [reflexivity | reflexivity | reflexivity | apply walk_ends_root].
  - lia.
  - exists state. split; [exact Hstate |]. split; [exact Hname |].
    apply (Hparent 0
             {| name_ := "AppController"; _uplink := None; _downlinks := [1];
                _states := {["app" := StateMeta.mk false [] (FnCallable 0)]};
                _nrStates := 1; _defaultState := None;
                _currentState := Some 0; _previousState := None |}
             0 (State.mk "app.list" 0 ∅) "app");
      [reflexivity | reflexivity | reflexivity | reflexivity | reflexivity | discriminate].
Defined.


(** X13 on the application controller, which has a state but no
    default, delegated a descriptor without name in a debug build. *)
Lemma X13_empty_name_witness :
  ∃ w',
    delegateState (authority := Demo.registry) (runtime := Demo.debug_build)
      1 0 (ArgState 0) Demo.nameless = Ret RUndefined w'
    ∧ nodes (store w') = nodes (store Demo.nameless)
    ∧ current (store w') = current (store Demo.nameless)
    ∧ heap (store w') = <[0 := State.mk "" 0 ∅]> (heap (store Demo.nameless))
    ∧ trace w' = [Delegated 0 (ArgState 0); Warn (NoDefaultState "AppController")].
Proof.
  apply (X13_empty_name_is_ignored (authority := Demo.registry) (runtime := Demo.debug_build)
           0 0 (ArgState 0) Demo.nameless Demo.app 0 (State.mk "" 0 ∅));
    reflexivity.
Defined.

(** X14 on the items controller while the authority holds nothing. *)
Lemma X14_no_descriptor_witness :
  delegateState (authority := Demo.registry) (runtime := Demo.debug_build)
    1 0 ArgNone Demo.asking
  = Throw TypeError {| store := store Demo.asking; trace := [Delegated 0 ArgNone] |}.
Proof.
  apply (X14_no_descriptor_is_a_TypeError (authority := Demo.registry)
           (runtime := Demo.debug_build) 0 0 ArgNone Demo.asking). reflexivity.
Defined.

(** X15 on the tree: the application controller handles [app.item]. *)
Lemma X15_own_handling_witness :
  ∃ w',
    _performStateChange (runtime := Demo.debug_build) 0 0 Demo.tree = Ret tt w'
    ∧ trace w' = [Commit 0 None 2; Advance 0; Handler 0 "app"]
    ∧ controller_at (store w') 0 = Some (commit Demo.app 2).
Proof.
  destruct (X15_own_handling (runtime := Demo.debug_build) 0 0 Demo.app
              (State.mk "app.item" 0 ∅) Demo.tree eq_refl eq_refl) as [Hrun Hself].
  eexists. split; [exact Hrun |]. split; [reflexivity | exact Hself].
Defined.

(** X16 on the tree: the first delegation to the application
    controller calls its handler. *)
Lemma X16_first_state_witness :
  delegateState (authority := Demo.registry) (runtime := Demo.debug_build)
    1 0 ArgNone Demo.tree
  = (syncFullName 0 0 "app";; mret (RThis 0))
      {| store := store (advanced 0 (State.mk "app.item" 0 ∅)
                           (committed 0 Demo.app (State.mk "app.item" 0 ∅)
                              (entered 0 ArgNone 0 Demo.app (State.mk "app.item" 0 ∅)
                                 Demo.tree)));
         trace := [Delegated 0 ArgNone; Commit 0 None 2; Advance 0; Handler 0 "app"] |}.
Proof.
  apply (X16_first_and_wildcard_states_are_handled (authority := Demo.registry)
           (runtime := Demo.debug_build) 0 0 ArgNone Demo.tree Demo.app 0
           (State.mk "app.item" 0 ∅) "app" (StateMeta.mk false [] (FnCallable 0)) 0);
    [reflexivity | reflexivity | reflexivity | reflexivity | discriminate | reflexivity
    | reflexivity | left; reflexivity].
Defined.

(** X17 at home: the descriptor [app] has no segment left, the view is
    passed by and the items controller, whose default path [app.list]
    is registered, is delegated. *)
Lemma X17_propagation_witness :
  _propagateState (authority := Demo.registry) (runtime := Demo.debug_build)
    (delegateState (authority := Demo.registry) (runtime := Demo.debug_build) 2) 0 0 Demo.home
  = (delegateState (authority := Demo.registry) (runtime := Demo.debug_build)
       2 2 (ArgState 0);; mret tt)
      (advanced 0 (State.mk "app" 0 ∅)
         (committed 0
            {| name_ := "AppController"; _uplink := None; _downlinks := [1; 2];
               _states := {["app" := StateMeta.mk false [] (FnCallable 0)]};
               _nrStates := 1; _defaultState := None;
               _currentState := None; _previousState := None |}
            (State.mk "app" 0 ∅) Demo.home)).
Proof.
  apply (X17_propagation_without_a_name (authority := Demo.registry)
           (runtime := Demo.debug_build) 2 0 0 _ (State.mk "app" 0 ∅) Demo.home
           eq_refl eq_refl eq_refl) with (before := [1]) (after := []);
    [reflexivity | | reflexivity].
  constructor; [split; [vm_compute; eauto | reflexivity] | constructor].
Defined.

(** X18 on the items controller asked for [nothere]. *)
Lemma X18_envelope_witness :
  setState (authority := Demo.registry) (runtime := Demo.debug_build)
    1 0 (Some "nothere") None None Demo.asking
  = delegateState (authority := Demo.registry) (runtime := Demo.debug_build)
      1 0 (ArgState 0) Demo.asked
  ∧ heap (store Demo.asking) !! 0%nat = None
  ∧ argState (store Demo.asked) (ArgBag {["$info" := VInfo 0 None]}) = Some 0.
Proof.
  apply (X18_unregistered_state_gets_an_envelope (authority := Demo.registry)
           (runtime := Demo.debug_build) 1 0 (Some "nothere") None None Demo.asking
           (Demo.items_controller None) (Resolved.mk (Some "nothere") "nothere" ∅) "nothere");
    reflexivity.
Defined.

(** X19 on the tree, with handlers that do nothing. *)
Lemma X19_frame_witness :
  ∃ w',
    final_world (delegateState (authority := Demo.registry) (runtime := Demo.debug_build)
                   3 0 ArgNone Demo.tree) = Some w'
    ∧ current (store w') = Some 0
    ∧ ∀ x, frame_of <$> nodes (store w') !! x = frame_of <$> nodes (store Demo.tree) !! x.
Proof.
  eexists. split; [vm_compute; reflexivity |].
  destruct (X19_delegation_keeps_the_frame (authority := Demo.registry)
              (runtime := Demo.debug_build) 3 0 ArgNone Demo.tree _
              (λ h c p σ, same_frame_refl σ) eq_refl) as (Hcurrent & Hnodes & _).
  split; [exact Hcurrent | exact Hnodes].
Defined.
